(** * OptionsArbitrage.py: the no-arbitrage cleaner of a quoted option chain

    A shallow embedding of [OptionsArbitrageCleaner] and
    [clean_all_dataframes].  Prices and strikes are IEEE binary64 numbers
    (the dtype of the pandas columns), modelled by Rocq's primitive floats;
    a DataFrame is the list of its rows, each carrying its index label. *)

From Stdlib Require Import List ZArith Lia Bool Floats Sorting.Sorted.
Import ListNotations.

(** ** Ranks of binary64 numbers

    The comparisons of [PrimFloat] are specified through [SFcompare] on
    [spec_float].  [SFcompare] is a lexicographic comparison: every number
    (anything but NaN) is ranked by a triple of integers. *)

Module FloatRank.

Definition rank (f : spec_float) : option (Z * Z * Z) :=
  match f with
  | S754_nan => None
  | S754_infinity true => Some ((-2)%Z, 0%Z, 0%Z)
  | S754_infinity false => Some (2%Z, 0%Z, 0%Z)
  | S754_zero _ => Some (0%Z, 0%Z, 0%Z)
  | S754_finite true m e => Some ((-1)%Z, (- e)%Z, Z.neg m)
  | S754_finite false m e => Some (1%Z, e, Z.pos m)
  end.

Definition cmp3 (a b : Z * Z * Z) : comparison :=
  let '(a1, a2, a3) := a in
  let '(b1, b2, b3) := b in
  match Z.compare a1 b1 with
  | Eq => match Z.compare a2 b2 with
          | Eq => Z.compare a3 b3
          | c => c
          end
  | c => c
  end.

Definition lt3 (a b : Z * Z * Z) : Prop :=
  let '(a1, a2, a3) := a in
  let '(b1, b2, b3) := b in
  (a1 < b1 \/ (a1 = b1 /\ (a2 < b2 \/ (a2 = b2 /\ a3 < b3))))%Z.

Definition key (x : float) : option (Z * Z * Z) := rank (Prim2SF x).

End FloatRank.

(** ** Data model *)

Local Open Scope float_scope.
Set Warnings "-inexact-float".

(** One row of a quote table: the columns [strike], [bid] and [ask]
    (the optional [mid] column is never read by the cleaner). *)
Record Quote := mkQuote { strike : float; bid : float; ask : float }.

(** A pandas DataFrame: its rows in row order, each with its index label.
    Labels are integers; [reset_index] produces the labels [0 .. n-1]. *)
Definition DataFrame := list (Z * Quote).

(** The [price_type] / [option_type] string: the source tests
    [price_type == 'call'] and treats everything else as a put. *)
Inductive price_type := call | put.

(** The exceptions the code can raise. *)
Inductive exn := ValueError | IndexError | KeyError.

Inductive result (A : Type) :=
| Ok (a : A)
| Raise (e : exn).
Arguments Ok {A} a.
Arguments Raise {A} e.

Definition bind {A B} (r : result A) (k : A -> result B) : result B :=
  match r with
  | Ok a => k a
  | Raise e => Raise e
  end.

Notation "x <- r ;; k" := (bind r (fun x => k))
  (at level 61, r at next level, right associativity).

(** The attributes of [OptionsArbitrageCleaner] set by [__init__]. *)
Record OptionsArbitrageCleaner := mkCleaner {
  Sb : float; Sa : float;
  rate : float; maturity : float; dividend : float;
  df_r : float; df_q : float
}.

(** The tolerance [1e-10] of every checker. *)
Definition eps : float := 1e-10.

(** ** pandas and numpy primitives *)

Definition labels (df : DataFrame) : list Z := map fst df.
Definition rows (df : DataFrame) : list Quote := map snd df.

Definition mem (l : Z) (ls : list Z) : bool := existsb (Z.eqb l) ls.

(** [reset_index(drop=True)]: the rows keep their order and are labelled
    by position. *)
Fixpoint relabel (start : Z) (qs : list Quote) : DataFrame :=
  match qs with
  | [] => []
  | q :: qs' => (start, q) :: relabel (start + 1)%Z qs'
  end.

Definition reset_index (df : DataFrame) : DataFrame := relabel 0%Z (rows df).

(** [sort_values('strike')]: rows with a NaN strike go last, in row order
    ([na_position='last']); the other rows are sorted ascending.  The sort is
    modelled as a stable insertion sort; pandas' default algorithm may order
    rows of equal strike differently. *)
Fixpoint insert_row (x : Z * Quote) (l : DataFrame) : DataFrame :=
  match l with
  | [] => [x]
  | y :: l' =>
      if strike (snd y) <? strike (snd x) then y :: insert_row x l'
      else x :: l
  end.

Fixpoint isort (l : DataFrame) : DataFrame :=
  match l with
  | [] => []
  | x :: l' => insert_row x (isort l')
  end.

Definition sort_values (df : DataFrame) : DataFrame :=
  isort (filter (fun r => negb (is_nan (strike (snd r)))) df)
  ++ filter (fun r => is_nan (strike (snd r))) df.

(** [df.sort_values('strike').reset_index(drop=True)], as its rows: after
    the reset the label of a row is its position, so [.loc[i, col]] reads
    the [i]-th row and [.index[i]] is [i]. *)
Definition df_sorted (df : DataFrame) : list Quote := rows (sort_values df).

(** [df.drop(index=ls)]: [KeyError] when a label of [ls] is not in the index;
    otherwise every row whose label is in [ls] goes. *)
Definition drop (df : DataFrame) (ls : list Z) : result DataFrame :=
  if forallb (fun l => mem l (labels df)) ls
  then Ok (filter (fun r => negb (mem (fst r) ls)) df)
  else Raise KeyError.

(** Python's [max(x, 0)]: the first argument unless the second is greater. *)
Definition py_max (x y : float) : float := if x <? y then y else x.

(** [np.argmin] on float64: the index of the first NaN when there is one,
    else the first index of the minimum; [ValueError] on an empty array. *)
Fixpoint argmin_loop (mp : float) (min_ind i : nat) (l : list float) : nat :=
  match l with
  | [] => min_ind
  | x :: l' =>
      if negb (mp <=? x)
      then if is_nan x then i else argmin_loop x i (S i) l'
      else argmin_loop mp min_ind (S i) l'
  end.

Definition np_argmin (l : list float) : result nat :=
  match l with
  | [] => Raise ValueError
  | x :: l' => if is_nan x then Ok 0%nat else Ok (argmin_loop x 0 1 l')
  end.

(** ** The cleaner *)

(** [identify_atm_strike] *)
Definition identify_atm_strike (self : OptionsArbitrageCleaner)
    (df : DataFrame) : result float :=
  let spot_mid := (Sb self + Sa self) / 2 in
  let strikes := map strike (rows df) in
  atm_idx <- np_argmin (map (fun k => abs (k - spot_mid)) strikes) ;;
  match nth_error strikes atm_idx with
  | Some k => Ok k
  | None => Raise IndexError
  end.

(** The monotonicity test on the rows at positions [i] and [i+1] of the
    sorted view. *)
Definition mono_violation (pt : price_type) (lo hi : Quote) : bool :=
  match pt with
  | call => ask lo <? bid hi
  | put => ask hi <? bid lo
  end.

(** The convexity test on the rows at positions [i-1], [i], [i+1]. *)
Definition convex_violation (pt : price_type) (q1 q2 q3 : Quote) : bool :=
  let K1 := strike q1 in
  let K2 := strike q2 in
  let K3 := strike q3 in
  match pt with
  | call =>
      let C1 := ask q1 in let C2 := bid q2 in let C3 := ask q3 in
      let slope1 := (C2 - C1) / (K2 - K1) in
      let slope2 := (C3 - C2) / (K3 - K2) in
      slope2 + eps <? slope1
  | put =>
      let P1 := bid q1 in let P2 := ask q2 in let P3 := bid q3 in
      let slope1 := (P2 - P1) / (K2 - K1) in
      let slope2 := (P3 - P2) / (K3 - K2) in
      slope2 + eps <? slope1
  end.

(** [_check_vertical_no_arb]: positions in the sorted view. *)
Definition _check_vertical_no_arb (df : DataFrame) (pt : price_type)
    : list Z :=
  let s := df_sorted df in
  let n := length s in
  let mono :=
    flat_map (fun i =>
      match nth_error s i, nth_error s (i + 1) with
      | Some lo, Some hi =>
          if mono_violation pt lo hi then [Z.of_nat (i + 1)] else []
      | _, _ => []
      end) (seq 0 (n - 1)) in
  let conv :=
    flat_map (fun i =>
      match nth_error s (i - 1), nth_error s i, nth_error s (i + 1) with
      | Some q1, Some q2, Some q3 =>
          if convex_violation pt q1 q2 q3 then [Z.of_nat i] else []
      | _, _, _ => []
      end) (seq 1 (n - 2)) in
  nodup Z.eq_dec (mono ++ conv).

(** The spacing ratio and the cost of the butterfly at [i-1], [i], [i+1]. *)
Definition spacing_ratio (q1 q2 q3 : Quote) : float :=
  abs ((strike q2 - strike q1) - (strike q3 - strike q2)) / strike q2.

Definition butterfly_cost (q1 q2 q3 : Quote) : float :=
  bid q1 - 2 * ask q2 + bid q3.

(** [_check_butterfly_no_arb]: positions in the sorted view. *)
Definition _check_butterfly_no_arb (df : DataFrame) (pt : price_type)
    : list Z :=
  let s := df_sorted df in
  let n := length s in
  flat_map (fun i =>
    match nth_error s (i - 1), nth_error s i, nth_error s (i + 1) with
    | Some q1, Some q2, Some q3 =>
        if 0.01 <? spacing_ratio q1 q2 q3 then []
        else
          match pt with
          | call => if eps <? butterfly_cost q1 q2 q3 then [Z.of_nat i] else []
          | put => if eps <? butterfly_cost q1 q2 q3 then [Z.of_nat i] else []
          end
    | _, _, _ => []
    end) (seq 1 (n - 2)).

(** The test of [_check_bounds] on one row. *)
Definition bounds_violation (self : OptionsArbitrageCleaner)
    (pt : price_type) (row : Quote) : bool :=
  let K := strike row in
  match pt with
  | call =>
      let lower_bound := py_max (Sb self * df_q self - K * df_r self) 0 in
      let upper_bound := Sa self in
      (bid row <? lower_bound - eps) || (upper_bound + eps <? ask row)
  | put =>
      let lower_bound := py_max (K * df_r self - Sa self * df_q self) 0 in
      let upper_bound := K * df_r self in
      (bid row <? lower_bound - eps) || (upper_bound + eps <? ask row)
  end.

(** [_check_bounds]: the index labels of the rows out of bounds, in the
    order of [df.iterrows()]. *)
Fixpoint _check_bounds (self : OptionsArbitrageCleaner) (df : DataFrame)
    (pt : price_type) : list Z :=
  match df with
  | [] => []
  | (idx, row) :: df' =>
      if bounds_violation self pt row
      then idx :: _check_bounds self df' pt
      else _check_bounds self df' pt
  end.

(** [df.index[df['strike'] == atm_strike].tolist()[0]] *)
Definition anchor_index (df : DataFrame) (atm_strike : float) : result Z :=
  match filter (fun r => strike (snd r) =? atm_strike) df with
  | [] => Raise IndexError
  | (l, _) :: _ => Ok l
  end.

(** [set(v_vertical + v_butterfly + v_bounds)] after
    [discard(atm_index)].  The set is kept as a duplicate-free list; only its
    members, its emptiness and its size are observed. *)
Definition all_violations (self : OptionsArbitrageCleaner) (df : DataFrame)
    (pt : price_type) (atm_index : Z) : list Z :=
  remove Z.eq_dec atm_index
    (nodup Z.eq_dec (_check_vertical_no_arb df pt
                     ++ _check_butterfly_no_arb df pt
                     ++ _check_bounds self df pt)).

(** How the loop of [clean_single_dataframe] was left. *)
Inductive terminal := CLEAN | ANCHOR_LOST | ITER_EXHAUSTED.

(** The [for] loop of [clean_single_dataframe], entered with the locals
    [df_clean] and [atm_index] and [fuel] iterations of [range(max_iter)]
    left. *)
Fixpoint clean_loop (self : OptionsArbitrageCleaner) (pt : price_type)
    (atm_strike : float) (fuel : nat) (df_clean : DataFrame) (atm_index : Z)
    : result (DataFrame * terminal) :=
  match fuel with
  | O => Ok (df_clean, ITER_EXHAUSTED)
  | S fuel' =>
      let viol := all_violations self df_clean pt atm_index in
      match viol with
      | [] => Ok (df_clean, CLEAN)
      | _ :: _ =>
          dropped <- drop df_clean viol ;;
          let df_clean' := reset_index dropped in
          if existsb (fun q => strike q =? atm_strike) (rows df_clean')
          then
            atm_index' <- anchor_index df_clean' atm_strike ;;
            clean_loop self pt atm_strike fuel' df_clean' atm_index'
          else Ok (df_clean', ANCHOR_LOST)
      end
  end.

(** [clean_single_dataframe], with the exit taken. *)
Definition clean_trace (self : OptionsArbitrageCleaner) (df : DataFrame)
    (option_type : price_type) (atm_strike : float) (max_iter : nat)
    : result (DataFrame * terminal) :=
  atm_index <- anchor_index df atm_strike ;;
  clean_loop self option_type atm_strike max_iter df atm_index.

(** [clean_single_dataframe]: the table it returns. *)
Definition clean_single_dataframe (self : OptionsArbitrageCleaner)
    (df : DataFrame) (option_type : price_type) (atm_strike : float)
    (max_iter : nat) : result DataFrame :=
  r <- clean_trace self df option_type atm_strike max_iter ;;
  Ok (fst r).

(** ** The batch processor *)

(** The [report] dictionary. *)
Record Report := mkReport {
  removed_counts : list Z;
  arbitrage_types_found : list price_type
}.

Section Batch.

(** [np.exp], which the constructor applies to [-r * T] and [-q * T]. *)
Variable np_exp : float -> float.

(** [OptionsArbitrageCleaner.__init__] *)
Definition init (spot_bid spot_ask r T q : float) : OptionsArbitrageCleaner :=
  mkCleaner spot_bid spot_ask r T q (np_exp (- r * T)) (np_exp (- q * T)).

(** The body of the loop over [zip(list_of_dfs, option_types)], with the
    lists [cleaned_dfs] and [report['removed_counts']] built so far. *)
Fixpoint batch_loop (cleaner : OptionsArbitrageCleaner)
    (pairs : list (DataFrame * price_type))
    (cleaned_dfs : list DataFrame) (counts : list Z)
    : result (list DataFrame * list Z) :=
  match pairs with
  | [] => Ok (cleaned_dfs, counts)
  | (df, o_type) :: pairs' =>
      atm_strike <- identify_atm_strike cleaner df ;;
      df_cleaned <- clean_single_dataframe cleaner df o_type atm_strike 20 ;;
      let removed := (Z.of_nat (length df) - Z.of_nat (length df_cleaned))%Z in
      batch_loop cleaner pairs' (cleaned_dfs ++ [df_cleaned])
        (counts ++ [removed])
  end.

(** [clean_all_dataframes] *)
Definition clean_all_dataframes (list_of_dfs : list DataFrame)
    (option_types : list price_type) (spot_bid spot_ask r T : float)
    : result (list DataFrame * Report) :=
  let cleaner := init spot_bid spot_ask r T 0 in
  out <- batch_loop cleaner (combine list_of_dfs option_types) [] [] ;;
  Ok (fst out, mkReport (snd out) []).

End Batch.

(** ** The claimed behaviour, in the words of the specification *)

(** Model-free bounds of section 4.4: [lower] and [upper] per side. *)
Definition spec_max0 (x : float) : float := if x <? 0 then 0 else x.

Definition spec_lower (self : OptionsArbitrageCleaner) (pt : price_type)
    (K : float) : float :=
  match pt with
  | call => spec_max0 (Sb self * df_q self - K * df_r self)
  | put => spec_max0 (K * df_r self - Sa self * df_q self)
  end.

Definition spec_upper (self : OptionsArbitrageCleaner) (pt : price_type)
    (K : float) : float :=
  match pt with
  | call => Sa self
  | put => K * df_r self
  end.

(** "Violation if [bid < lower - eps] or [ask > upper + eps]". *)
Definition spec_bounds_violation (self : OptionsArbitrageCleaner)
    (pt : price_type) (q : Quote) : Prop :=
  (bid q <? spec_lower self pt (strike q) - 1e-10) = true
  \/ (spec_upper self pt (strike q) + 1e-10 <? ask q) = true.

(** Distance of a strike to the spot midpoint, as [identify_atm_strike]
    computes it. *)
Definition atm_distance (self : OptionsArbitrageCleaner) (k : float) : float :=
  abs (k - (Sb self + Sa self) / 2).

(** The strike claimed in section 4.1: at minimal distance and, among the
    strikes at that distance, the first in strike-ascending order. *)
Definition spec_atm_selection (self : OptionsArbitrageCleaner)
    (df : DataFrame) (k : float) : Prop :=
  (forall q, In q (rows df) ->
     (atm_distance self (strike q) <? atm_distance self k) = false)
  /\ (forall q, In q (rows df) ->
        (atm_distance self (strike q) =? atm_distance self k) = true ->
        (strike q <? k) = false).

(** "calls: [ask(K_i) >= bid(K_{i+1})]; puts: [bid(K_i) <= ask(K_{i+1})]". *)
Definition spec_monotone (pt : price_type) (lo hi : Quote) : bool :=
  match pt with
  | call => bid hi <=? ask lo
  | put => bid lo <=? ask hi
  end.

(** Bid and ask are numbers. *)
Definition priced (q : Quote) : Prop :=
  is_nan (bid q) = false /\ is_nan (ask q) = false.

(** The strikes flagged by the three checkers, each result translated to the
    quote it was computed from: a position of the sorted view to the strike
    at that position, a label of the bounds checker to the strike of its
    row. *)
Definition flagged_strikes (self : OptionsArbitrageCleaner) (df : DataFrame)
    (pt : price_type) : list float :=
  flat_map (fun p => match nth_error (df_sorted df) (Z.to_nat p) with
                     | Some q => [strike q]
                     | None => []
                     end)
    (_check_vertical_no_arb df pt ++ _check_butterfly_no_arb df pt)
  ++ map strike (rows (filter (fun r => bounds_violation self pt (snd r)) df)).

(** The strikes of the rows that the removal of one iteration deletes. *)
Definition removed_strikes (self : OptionsArbitrageCleaner) (df : DataFrame)
    (pt : price_type) (atm_index : Z) : list float :=
  map strike
    (rows (filter (fun r => mem (fst r) (all_violations self df pt atm_index))
             df)).

(** ** Tables and loop states *)

(** The anchor strike occurs in the strike column. *)
Definition strike_present (df : DataFrame) (k : float) : bool :=
  existsb (fun q => strike q =? k) (rows df).

(** The anchor row: the first row whose strike equals [atm_strike]. *)
Definition anchor_row (df : DataFrame) (atm_strike : float)
    : option (Z * Quote) :=
  find (fun r => strike (snd r) =? atm_strike) df.

(** Strictly ascending strikes (the strikes of a quote table are distinct). *)
Definition ascending (df : DataFrame) : Prop :=
  StronglySorted (fun a b => (strike (snd a) <? strike (snd b)) = true) df.

(** A table as the cleaner leaves it after a removal when it was given a
    sorted one: default index [0 .. n-1], strikes strictly ascending. *)
Definition canonical (df : DataFrame) : Prop :=
  reset_index df = df /\ ascending df.

(** ** Example tables *)

(** Spot 100/100 with unit discount factors ([r = 0], [T = 1], [q = 0]). *)
Definition cleaner_100 : OptionsArbitrageCleaner := mkCleaner 100 100 0 1 0 1 1.

(** [np.exp] at the only arguments the examples give it, [0] and [-0]. *)
Definition exp_at_zero (x : float) : float := 1.

(** A table built with the default index [0 .. n-1] from
    [(strike, bid, ask)] triples. *)
Definition table (l : list (float * float * float)) : DataFrame :=
  relabel 0%Z (map (fun '(k, b, a) => mkQuote k b a) l).

Definition calls_3 : DataFrame :=
  table [(95, 8, 8.5); (100, 5, 5.5); (105, 3, 3.5)].

Definition scenario_A : DataFrame :=
  table [(90, 12, 12.5); (95, 8, 8.3); (100, 5, 5.2); (105, 2.8, 10);
         (110, 1, 1.3)].

Definition butterfly_3 : DataFrame :=
  table [(95, 8, 8.5); (100, 5, 5.2); (105, 3, 3.5)].

(** Two strikes at the same distance of the spot midpoint [100], the higher
    one first in the table. *)
Definition tie_table : DataFrame := table [(105, 3, 3.5); (95, 8, 8.5)].

(** Calls above the anchor [100]: each quote is consistent with its lower
    neighbour and breaks monotonicity against the anchor, so every removal
    exposes the next quote. *)
Definition cascade : DataFrame :=
  table [(100, 0.5, 1); (101, 2, 100); (102, 2, 100); (103, 2, 100);
         (104, 2, 100); (105, 2, 100); (106, 2, 100); (107, 2, 100);
         (108, 2, 100); (109, 2, 100); (110, 2, 100); (111, 2, 100);
         (112, 2, 100); (113, 2, 100); (114, 2, 100); (115, 2, 100);
         (116, 2, 100); (117, 2, 100); (118, 2, 100); (119, 2, 100);
         (120, 2, 100); (121, 2, 100); (122, 2, 100)].

(** Calls with the default index and ascending strikes, the anchor [100]
    bidding above the ask of its lower neighbour. *)
Definition anchor_breaks_monotonicity : DataFrame :=
  table [(90, 10, 10.5); (100, 11, 11.5)].

(** Calls with the default index, not in strike order; the quote at 105 bids
    above the ask at 100. *)
Definition unsorted_calls : DataFrame :=
  table [(100, 5, 5.2); (110, 1, 1.3); (105, 6, 6.5)].

(** ** Further notions on tables *)

(** [l1] is [l2] with some of its elements taken out, the others in the
    same order. *)
Inductive subseq {A : Type} : list A -> list A -> Prop :=
| subseq_nil : subseq [] []
| subseq_skip x l1 l2 : subseq l1 l2 -> subseq l1 (x :: l2)
| subseq_keep x l1 l2 : subseq l1 l2 -> subseq (x :: l1) (x :: l2).

(** The default index of pandas: the labels are the positions. *)
Definition default_index (df : DataFrame) : Prop := reset_index df = df.

(** No two rows have equal strikes. *)
Definition distinct_strikes (df : DataFrame) : Prop :=
  forall i j qi qj,
    nth_error (rows df) i = Some qi ->
    nth_error (rows df) j = Some qj ->
    (strike qi =? strike qj) = true -> i = j.

(** Every strike is a number. *)
Definition numeric_strikes (df : DataFrame) : Prop :=
  Forall (fun q => is_nan (strike q) = false) (rows df).

(** Every distance to the spot midpoint is a number. *)
Definition numeric_distances (self : OptionsArbitrageCleaner)
    (df : DataFrame) : Prop :=
  Forall (fun q => is_nan (atm_distance self (strike q)) = false) (rows df).

(** What the cleaner returns on [scenario_A] (the quote at 95 is removed) and
    on [cascade] after 20 iterations. *)
Definition scenario_A_cleaned : DataFrame :=
  table [(90, 12, 12.5); (100, 5, 5.2); (105, 2.8, 10); (110, 1, 1.3)].

Definition cascade_rest : DataFrame :=
  table [(100, 0.5, 1); (121, 2, 100); (122, 2, 100)].

(** What a second run, or 30 iterations, leaves of [cascade]. *)
Definition cascade_end : DataFrame := table [(100, 0.5, 1)].

(** ** Order facts on binary64 *)

Module FloatOrder.

Import FloatRank.

Lemma cmp3_Lt a b : cmp3 a b = Lt <-> lt3 a b.
Proof.
  destruct a as [[a1 a2] a3], b as [[b1 b2] b3]; unfold cmp3, lt3.
  destruct (Z.compare_spec a1 b1); destruct (Z.compare_spec a2 b2);
    destruct (Z.compare_spec a3 b3); split; intros; try discriminate;
    try reflexivity; lia.
Qed.

Lemma cmp3_Gt a b : cmp3 a b = Gt <-> lt3 b a.
Proof.
  destruct a as [[a1 a2] a3], b as [[b1 b2] b3]; unfold cmp3, lt3.
  destruct (Z.compare_spec a1 b1); destruct (Z.compare_spec a2 b2);
    destruct (Z.compare_spec a3 b3); split; intros; try discriminate;
    try reflexivity; lia.
Qed.

Lemma cmp3_Eq a b : cmp3 a b = Eq <-> a = b.
Proof.
  destruct a as [[a1 a2] a3], b as [[b1 b2] b3]; unfold cmp3.
  destruct (Z.compare_spec a1 b1); destruct (Z.compare_spec a2 b2);
    destruct (Z.compare_spec a3 b3); split; intros H2; try discriminate;
    try reflexivity; try (injection H2; intros; lia); subst; reflexivity.
Qed.

Lemma lt3_trans a b c : lt3 a b -> lt3 b c -> lt3 a c.
Proof.
  destruct a as [[a1 a2] a3], b as [[b1 b2] b3], c as [[c1 c2] c3].
  unfold lt3; lia.
Qed.

Lemma lt3_irrefl a : ~ lt3 a a.
Proof. destruct a as [[a1 a2] a3]; unfold lt3; lia. Qed.

Lemma lt3_total a b : lt3 a b \/ a = b \/ lt3 b a.
Proof.
  destruct (cmp3 a b) eqn:E.
  - right; left; now apply cmp3_Eq.
  - left; now apply cmp3_Lt.
  - right; right; now apply cmp3_Gt.
Qed.

Lemma SFcompare_rank f1 f2 :
  SFcompare f1 f2 =
  match rank f1, rank f2 with
  | Some a, Some b => Some (cmp3 a b)
  | _, _ => None
  end.
Proof.
  destruct f1 as [s1|s1| |s1 m1 e1], f2 as [s2|s2| |s2 m2 e2];
    try destruct s1; try destruct s2; try reflexivity; simpl.
  rewrite Z.compare_opp.
  destruct (Z.compare_spec e2 e1); destruct (Z.compare_spec e1 e2);
    try lia; reflexivity.
Qed.

Lemma is_nan_key x : is_nan x = true <-> key x = None.
Proof.
  unfold is_nan, key. rewrite FloatAxioms.eqb_spec. unfold SFeqb.
  rewrite SFcompare_rank. destruct (rank (Prim2SF x)) as [a|]; simpl.
  - assert (E : cmp3 a a = Eq) by now apply cmp3_Eq.
    rewrite E. split; discriminate.
  - split; reflexivity.
Qed.

Lemma number_key x : is_nan x = false <-> exists a, key x = Some a.
Proof.
  destruct (key x) as [a|] eqn:E.
  - split; [eauto|]. intros _. destruct (is_nan x) eqn:N; [|reflexivity].
    apply is_nan_key in N. congruence.
  - split.
    + intros N. apply is_nan_key in E. congruence.
    + intros [a H]. discriminate.
Qed.

Lemma ltb_key x y :
  (x <? y)%float = true <->
  exists a b, key x = Some a /\ key y = Some b /\ lt3 a b.
Proof.
  rewrite ltb_spec. unfold SFltb, key. rewrite SFcompare_rank.
  destruct (rank (Prim2SF x)) as [a|], (rank (Prim2SF y)) as [b|];
    try (split; [discriminate | intros (a' & b' & ? & ? & _); discriminate]).
  split.
  - intros H. exists a, b. repeat split. apply cmp3_Lt.
    destruct (cmp3 a b); congruence.
  - intros (a' & b' & Ha & Hb & L). injection Ha as <-. injection Hb as <-.
    apply cmp3_Lt in L. now rewrite L.
Qed.

Lemma leb_key x y :
  (x <=? y)%float = true <->
  exists a b, key x = Some a /\ key y = Some b /\ ~ lt3 b a.
Proof.
  rewrite leb_spec. unfold SFleb, key. rewrite SFcompare_rank.
  destruct (rank (Prim2SF x)) as [a|], (rank (Prim2SF y)) as [b|];
    try (split; [discriminate | intros (a' & b' & ? & ? & _); discriminate]).
  split.
  - intros H. exists a, b. repeat split. intros G. apply cmp3_Gt in G.
    rewrite G in H. discriminate.
  - intros (a' & b' & Ha & Hb & L). injection Ha as <-. injection Hb as <-.
    destruct (cmp3 a b) eqn:E; try reflexivity.
    apply cmp3_Gt in E. contradiction.
Qed.

(** [x < y] is asymmetric and transitive, and holds of numbers only. *)
Lemma ltb_number x y :
  (x <? y)%float = true -> is_nan x = false /\ is_nan y = false.
Proof.
  intros H. apply ltb_key in H. destruct H as (a & b & Ha & Hb & _).
  split; apply number_key; eauto.
Qed.

Lemma ltb_asym x y : (x <? y)%float = true -> (y <? x)%float = false.
Proof.
  intros H. destruct (y <? x)%float eqn:G; [|reflexivity].
  apply ltb_key in H. apply ltb_key in G.
  destruct H as (a & b & Ha & Hb & L), G as (b' & a' & Hb' & Ha' & L').
  rewrite Ha in Ha'. rewrite Hb in Hb'. injection Ha' as <-. injection Hb' as <-.
  exfalso. exact (lt3_irrefl a (lt3_trans a b a L L')).
Qed.

Lemma ltb_trans x y z :
  (x <? y)%float = true -> (y <? z)%float = true -> (x <? z)%float = true.
Proof.
  intros H G. apply ltb_key in H. apply ltb_key in G. apply ltb_key.
  destruct H as (a & b & Ha & Hb & L), G as (b' & c & Hb' & Hc & L').
  rewrite Hb in Hb'. injection Hb' as <-.
  exists a, c. repeat split; trivial. exact (lt3_trans _ _ _ L L').
Qed.

(** On numbers, [x <= y] is the negation of [y < x]. *)
Lemma leb_negb_ltb x y :
  is_nan x = false -> is_nan y = false ->
  (x <=? y)%float = negb (y <? x)%float.
Proof.
  intros Nx Ny. apply number_key in Nx. apply number_key in Ny.
  destruct Nx as [a Ha], Ny as [b Hb].
  destruct (y <? x)%float eqn:G; simpl.
  - destruct (x <=? y)%float eqn:H; [|reflexivity].
    apply ltb_key in G. apply leb_key in H.
    destruct G as (b' & a' & Hb' & Ha' & L), H as (a2 & b2 & Ha2 & Hb2 & NL).
    rewrite Ha in Ha', Ha2. rewrite Hb in Hb', Hb2.
    injection Ha' as <-. injection Ha2 as <-.
    injection Hb' as <-. injection Hb2 as <-. contradiction.
  - apply leb_key. exists a, b. repeat split; trivial.
    intros L. assert (T : (y <? x)%float = true)
      by (apply ltb_key; exists b, a; auto).
    congruence.
Qed.

Lemma leb_trans x y z :
  (x <=? y)%float = true -> (y <=? z)%float = true -> (x <=? z)%float = true.
Proof.
  intros H G. apply leb_key in H. apply leb_key in G. apply leb_key.
  destruct H as (a & b & Ha & Hb & L), G as (b' & c & Hb' & Hc & L').
  rewrite Hb in Hb'. injection Hb' as <-.
  exists a, c. repeat split; trivial. intros L2.
  destruct (lt3_total a b) as [T|[T|T]]; try contradiction.
  - apply L'. exact (lt3_trans _ _ _ L2 T).
  - subst b. contradiction.
Qed.

Lemma ltb_leb_trans x y z :
  (x <? y)%float = true -> (y <=? z)%float = true -> (x <? z)%float = true.
Proof.
  intros H G. apply ltb_key in H. apply leb_key in G. apply ltb_key.
  destruct H as (a & b & Ha & Hb & L), G as (b' & c & Hb' & Hc & L').
  rewrite Hb in Hb'. injection Hb' as <-.
  exists a, c. repeat split; trivial.
  destruct (lt3_total b c) as [T|[T|T]]; try contradiction.
  - exact (lt3_trans _ _ _ L T).
  - now subst c.
Qed.

Lemma leb_number x y :
  (x <=? y)%float = true -> is_nan x = false /\ is_nan y = false.
Proof.
  intros H. apply leb_key in H. destruct H as (a & b & Ha & Hb & _).
  split; apply number_key; eauto.
Qed.

Lemma leb_refl x : is_nan x = false -> (x <=? x)%float = true.
Proof.
  intros N. apply number_key in N. destruct N as [a Ha].
  apply leb_key. exists a, a. repeat split; trivial. apply lt3_irrefl.
Qed.

Lemma ltb_leb x y : (x <? y)%float = true -> (x <=? y)%float = true.
Proof.
  intros H. destruct (ltb_number x y H) as [Nx Ny].
  rewrite (leb_negb_ltb x y Nx Ny), (ltb_asym x y H). reflexivity.
Qed.

End FloatOrder.

(** ** Basic facts on the primitives *)

Lemma mem_In l ls : mem l ls = true <-> In l ls.
Proof.
  unfold mem. rewrite existsb_exists. split.
  - intros (x & Hx & E). apply Z.eqb_eq in E. now subst.
  - intros H. exists l. split; trivial. apply Z.eqb_refl.
Qed.

Lemma rows_relabel s qs : rows (relabel s qs) = qs.
Proof.
  revert s. induction qs as [|q qs IH]; intros s; simpl; [reflexivity|].
  unfold rows in IH. now rewrite IH.
Qed.

Lemma length_relabel s qs : length (relabel s qs) = length qs.
Proof. rewrite <- (rows_relabel s qs) at 2. unfold rows. now rewrite length_map. Qed.

Lemma anchor_index_find df k :
  anchor_index df k =
  match find (fun r => strike (snd r) =? k) df with
  | Some (l, _) => Ok l
  | None => Raise IndexError
  end.
Proof.
  unfold anchor_index. induction df as [|[l q] df IH]; simpl; [reflexivity|].
  destruct (strike q =? k); [reflexivity | exact IH].
Qed.

Lemma strike_present_find df k :
  strike_present df k = true <->
  exists l q, find (fun r => strike (snd r) =? k) df = Some (l, q).
Proof.
  unfold strike_present, rows. induction df as [|[l q] df IH]; simpl.
  - split; [discriminate | intros (l & q & H); discriminate].
  - destruct (strike q =? k); simpl.
    + split; eauto.
    + exact IH.
Qed.

Lemma anchor_index_row df atm idx :
  anchor_index df atm = Ok idx <-> exists q, anchor_row df atm = Some (idx, q).
Proof.
  rewrite anchor_index_find. unfold anchor_row.
  destruct (find (fun r => strike (snd r) =? atm) df) as [[l q]|]; split.
  - intros E. injection E as ->. eauto.
  - intros [q' E]. injection E as -> _. reflexivity.
  - discriminate.
  - intros [q' E]. discriminate.
Qed.

Lemma drop_Ok df ls d :
  drop df ls = Ok d -> d = filter (fun r => negb (mem (fst r) ls)) df.
Proof.
  unfold drop. destruct (forallb _ ls); [|discriminate].
  intros E. now injection E.
Qed.

Lemma remove_nil_inv x l :
  remove Z.eq_dec x l = [] -> forall y, In y l -> y = x.
Proof.
  induction l as [|z l IH]; simpl; [contradiction|].
  destruct (Z.eq_dec x z) as [->|N].
  - intros H y [<-|Hy]; [reflexivity | now apply IH].
  - discriminate.
Qed.

Lemma filter_all {A} (f : A -> bool) l :
  Forall (fun x => f x = true) l -> filter f l = l.
Proof.
  induction 1 as [|x l Hx _ IH]; simpl; [reflexivity|]. now rewrite Hx, IH.
Qed.

Lemma filter_none {A} (f : A -> bool) l :
  Forall (fun x => f x = false) l -> filter f l = [].
Proof.
  induction 1 as [|x l Hx _ IH]; simpl; [reflexivity|]. now rewrite Hx.
Qed.

Lemma check_bounds_filter self df pt :
  _check_bounds self df pt =
  labels (filter (fun r => bounds_violation self pt (snd r)) df).
Proof.
  induction df as [|[idx row] df IH]; simpl; [reflexivity|].
  destruct (bounds_violation self pt row); simpl; now rewrite IH.
Qed.

(** ** Tables sorted by strike *)

Lemma isort_ascending df : ascending df -> isort df = df.
Proof.
  induction 1 as [|x l S IH F]; simpl; [reflexivity|].
  rewrite IH. destruct l as [|y l']; simpl; [reflexivity|].
  inversion F as [|? ? Hxy _]; subst.
  now rewrite (FloatOrder.ltb_asym _ _ Hxy).
Qed.

Lemma ascending_numbers x y l :
  ascending (x :: y :: l) ->
  Forall (fun r => is_nan (strike (snd r)) = false) (x :: y :: l).
Proof.
  intros H. inversion H as [|? ? S F]; subst.
  constructor.
  - inversion F as [|? ? Hxy _]; subst.
    now destruct (FloatOrder.ltb_number _ _ Hxy).
  - eapply Forall_impl; [|exact F]. simpl. intros r Hr.
    now destruct (FloatOrder.ltb_number _ _ Hr).
Qed.

(** Sorting a table that is already ascending leaves it as it is. *)
Lemma sort_values_ascending df : ascending df -> sort_values df = df.
Proof.
  intros H. unfold sort_values.
  destruct df as [|x [|y l]].
  - reflexivity.
  - simpl. destruct (is_nan (strike (snd x))); reflexivity.
  - pose proof (ascending_numbers x y l H) as N.
    rewrite filter_all, filter_none.
    + rewrite app_nil_r. now apply isort_ascending.
    + exact N.
    + eapply Forall_impl; [|exact N]. simpl. intros r ->. reflexivity.
Qed.

Lemma ascending_filter g df : ascending df -> ascending (filter g df).
Proof.
  induction 1 as [|x l S IH F]; simpl; [constructor|].
  destruct (g x); [|exact IH].
  constructor; [exact IH|].
  rewrite Forall_forall in *. intros y Hy. apply filter_In in Hy.
  now apply F.
Qed.

Lemma ascending_relabel df : forall s, ascending df -> ascending (relabel s (rows df)).
Proof.
  induction df as [|[l q] df IH]; intros s H; simpl; [constructor|].
  inversion H as [|? ? S F]; subst. constructor.
  - now apply IH.
  - rewrite Forall_forall in *. intros [l' q'] Hy.
    assert (Q : In q' (rows df)).
    { rewrite <- (rows_relabel (s + 1)%Z (rows df)).
      unfold rows at 1. apply in_map_iff. now exists (l', q'). }
    unfold rows in Q. apply in_map_iff in Q. destruct Q as ([l'' q''] & E & Q).
    simpl in E. subst q''. exact (F _ Q).
Qed.

Lemma canonical_removal df ls d :
  ascending df -> drop df ls = Ok d -> canonical (reset_index d).
Proof.
  intros A D. apply drop_Ok in D. subst d. split.
  - unfold reset_index. now rewrite rows_relabel.
  - apply ascending_relabel. now apply ascending_filter.
Qed.

Lemma relabel_nth qs :
  forall s l q, In (l, q) (relabel s qs) ->
    (s <= l)%Z /\ nth_error qs (Z.to_nat (l - s)) = Some q.
Proof.
  induction qs as [|q0 qs IH]; intros s l q; simpl; [contradiction|].
  intros [E|H].
  - injection E as <- <-. rewrite Z.sub_diag. split; [lia | reflexivity].
  - apply IH in H. destruct H as [L N]. split; [lia|].
    replace (Z.to_nat (l - s)) with (S (Z.to_nat (l - (s + 1)))) by lia.
    exact N.
Qed.

(** ** The loop of [clean_single_dataframe] *)

Lemma find_filter_keep {A} (f g : A -> bool) l x :
  find f l = Some x -> g x = true -> find f (filter g l) = Some x.
Proof.
  induction l as [|y l IH]; simpl; [discriminate|].
  destruct (f y) eqn:F.
  - intros E G. injection E as ->. rewrite G. simpl. now rewrite F.
  - intros E G. destruct (g y); simpl; [rewrite F|]; now apply IH.
Qed.

Lemma find_relabel (p : Quote -> bool) df :
  forall s l q,
    find (fun r => p (snd r)) df = Some (l, q) ->
    exists l', find (fun r => p (snd r)) (relabel s (rows df)) = Some (l', q).
Proof.
  induction df as [|[l0 q0] df IH]; intros s l q; simpl; [discriminate|].
  destruct (p q0) eqn:P.
  - intros E. injection E as <- <-. eauto.
  - intros E. exact (IH (s + 1)%Z l q E).
Qed.

Lemma anchor_not_flagged self df pt idx :
  ~ In idx (all_violations self df pt idx).
Proof. unfold all_violations. apply remove_In. Qed.

(** The anchor row is in no removal: its label was discarded from the set. *)
Lemma anchor_survives_removal self pt atm df idx q d :
  anchor_row df atm = Some (idx, q) ->
  drop df (all_violations self df pt idx) = Ok d ->
  exists idx',
    anchor_row (reset_index d) atm = Some (idx', q)
    /\ anchor_index (reset_index d) atm = Ok idx'
    /\ strike_present (reset_index d) atm = true.
Proof.
  intros A D. apply drop_Ok in D.
  assert (K : anchor_row d atm = Some (idx, q)).
  { subst d. apply find_filter_keep; trivial. simpl.
    destruct (mem idx (all_violations self df pt idx)) eqn:M; [|reflexivity].
    apply mem_In in M. now apply anchor_not_flagged in M. }
  destruct (find_relabel (fun x => strike x =? atm) d 0%Z idx q K) as [idx' F].
  exists idx'. split; [exact F|]. split.
  - rewrite anchor_index_find. unfold reset_index. now rewrite F.
  - apply strike_present_find. exists idx', q. exact F.
Qed.

Section LoopInvariant.

Variables (self : OptionsArbitrageCleaner) (pt : price_type) (atm : float).

(** A property of the locals [(df_clean, atm_index)] ... *)
Variable Inv : DataFrame -> Z -> Prop.

(** ... that every removal followed by the re-resolution of the anchor
    keeps. *)
Hypothesis Inv_removal :
  forall df idx d idx',
    Inv df idx ->
    all_violations self df pt idx <> [] ->
    drop df (all_violations self df pt idx) = Ok d ->
    anchor_index (reset_index d) atm = Ok idx' ->
    Inv (reset_index d) idx'.

(** Such a property, if it tells where the anchor row is, holds when the loop
    is left; the loop is never left through the "ATM strike was removed"
    branch, and when it is left through "Clean" no violation is left. *)
Lemma clean_loop_invariant :
  forall fuel df idx out st,
    Inv df idx ->
    (exists q, anchor_row df atm = Some (idx, q)) ->
    clean_loop self pt atm fuel df idx = Ok (out, st) ->
    st <> ANCHOR_LOST
    /\ exists idx',
         Inv out idx'
         /\ anchor_index out atm = Ok idx'
         /\ (st = CLEAN -> all_violations self out pt idx' = []).
Proof.
  induction fuel as [|fuel IH]; intros df idx out st I [q A] H; simpl in H.
  - injection H as <- <-. split; [discriminate|]. exists idx.
    repeat split; trivial.
    + rewrite anchor_index_find. unfold anchor_row in A. now rewrite A.
    + discriminate.
  - destruct (all_violations self df pt idx) as [|v vs] eqn:V.
    + injection H as <- <-. split; [discriminate|]. exists idx.
      repeat split; trivial.
      rewrite anchor_index_find. unfold anchor_row in A. now rewrite A.
    + destruct (drop df (v :: vs)) as [d|e] eqn:D; [|discriminate].
      cbn [bind] in H. rewrite <- V in D.
      destruct (anchor_survives_removal self pt atm df idx q d A D)
        as (idx' & A' & X & P).
      unfold strike_present in P. rewrite P, X in H. cbn [bind] in H.
      apply (IH (reset_index d) idx'); eauto.
      apply (Inv_removal df idx d idx'); trivial. rewrite V. discriminate.
Qed.

End LoopInvariant.

(** ** C1: the anchor quote is never removed *)

(** From the entry point the anchor row is in every table of the run, and
    the "ATM strike was removed" branch is never taken. *)
Lemma clean_trace_keeps_anchor self df pt atm max_iter out st :
  clean_trace self df pt atm max_iter = Ok (out, st) ->
  st <> ANCHOR_LOST
  /\ exists idx idx' q,
       anchor_row df atm = Some (idx, q)
       /\ anchor_row out atm = Some (idx', q).
Proof.
  intros H. unfold clean_trace in H.
  destruct (anchor_index df atm) as [idx|e] eqn:X; [|discriminate].
  cbn [bind] in H. pose proof X as A. apply anchor_index_row in A.
  destruct A as [q A].
  destruct (clean_loop_invariant self pt atm
              (fun d i => anchor_row d atm = Some (i, q)))
    with (fuel := max_iter) (df := df) (idx := idx) (out := out) (st := st)
    as (NL & idx' & A' & _); eauto.
  - intros d0 i0 d i' I _ D X'.
    destruct (anchor_survives_removal self pt atm d0 i0 q d I D)
      as (i'' & A'' & X'' & _).
    congruence.
  - split; [exact NL|]. now exists idx, idx', q.
Qed.

(** C1. Whenever [clean_single_dataframe], given the strike that
    [identify_atm_strike] selects on the input table, returns a table, the
    run did not end in the "ATM strike was removed" branch, and the first
    input row at that strike is a row of the returned table, with the same
    strike, bid and ask. *)
Theorem anchor_invariance :
  forall self df pt max_iter atm out st,
    identify_atm_strike self df = Ok atm ->
    clean_trace self df pt atm max_iter = Ok (out, st) ->
    st <> ANCHOR_LOST
    /\ exists idx idx' q,
         anchor_row df atm = Some (idx, q)
         /\ (strike q =? atm) = true
         /\ In (idx', q) out.
Proof.
  intros self df pt max_iter atm out st _ H.
  destruct (clean_trace_keeps_anchor self df pt atm max_iter out st H)
    as (NL & idx & idx' & q & A & A').
  split; [exact NL|]. exists idx, idx', q.
  pose proof (find_some _ _ A) as [_ E].
  pose proof (find_some _ _ A') as [I' _].
  simpl in E. now repeat split.
Qed.

Lemma anchor_invariance_witness :
  CLEAN <> ANCHOR_LOST
  /\ exists idx idx' q,
       anchor_row scenario_A 100 = Some (idx, q)
       /\ (strike q =? 100) = true
       /\ In (idx', q)
            (table [(90, 12, 12.5); (100, 5, 5.2); (105, 2.8, 10);
                    (110, 1, 1.3)]).
Proof.
  apply (anchor_invariance cleaner_100 scenario_A call 20 100);
    reflexivity.
Defined.

(** ** C3: removal by position *)

Lemma relabel_In qs :
  forall s i q, nth_error qs i = Some q ->
    In ((s + Z.of_nat i)%Z, q) (relabel s qs).
Proof.
  induction qs as [|q0 qs IH]; intros s [|i] q H; simpl in *; try discriminate.
  - injection H as <-. left. f_equal. lia.
  - right. replace (s + Z.pos (Pos.of_succ_nat i))%Z
      with ((s + 1) + Z.of_nat i)%Z by lia.
    now apply IH.
Qed.

Lemma ascending_nth_lt df :
  ascending df ->
  forall i j a b, (i < j)%nat ->
    nth_error df i = Some a -> nth_error df j = Some b ->
    (strike (snd a) <? strike (snd b)) = true.
Proof.
  induction 1 as [|x l S IH F]; intros i j a b L Ha Hb.
  - destruct i; discriminate.
  - destruct j as [|j]; [lia|]. simpl in Hb. destruct i as [|i]; simpl in Ha.
    + injection Ha as <-. rewrite Forall_forall in F. apply F.
      eapply nth_error_In; eauto.
    + apply (IH i j); trivial. lia.
Qed.

(** The strikes of a sorted table are distinct. *)
Lemma ascending_strike_inj df i j q q' :
  ascending df ->
  nth_error (rows df) i = Some q -> nth_error (rows df) j = Some q' ->
  strike q = strike q' -> i = j.
Proof.
  intros A Hi Hj E. unfold rows in Hi, Hj. rewrite nth_error_map in Hi, Hj.
  destruct (nth_error df i) as [a|] eqn:Ea; [|discriminate].
  destruct (nth_error df j) as [b|] eqn:Eb; [|discriminate].
  simpl in Hi, Hj. injection Hi as <-. injection Hj as <-.
  destruct (Nat.lt_trichotomy i j) as [L|[L|L]]; trivial; exfalso.
  - pose proof (ascending_nth_lt df A i j a b L Ea Eb) as T.
    pose proof (FloatOrder.ltb_asym _ _ T) as T'. rewrite E in T. congruence.
  - pose proof (ascending_nth_lt df A j i b a L Eb Ea) as T.
    pose proof (FloatOrder.ltb_asym _ _ T) as T'. rewrite E in T'. congruence.
Qed.

Lemma sorted_positions_nonneg df pt p :
  In p (_check_vertical_no_arb df pt ++ _check_butterfly_no_arb df pt) ->
  (0 <= p)%Z.
Proof.
  intros H. apply in_app_or in H. destruct H as [H|H].
  - unfold _check_vertical_no_arb in H. apply nodup_In in H.
    apply in_app_or in H.
    destruct H as [H|H]; apply in_flat_map in H; destruct H as (i & _ & H).
    + destruct (nth_error (df_sorted df) i); [|contradiction].
      destruct (nth_error (df_sorted df) (i + 1)); [|contradiction].
      destruct (mono_violation pt q q0); [|contradiction].
      destruct H as [<-|[]]. lia.
    + destruct (nth_error (df_sorted df) (i - 1)); [|contradiction].
      destruct (nth_error (df_sorted df) i); [|contradiction].
      destruct (nth_error (df_sorted df) (i + 1)); [|contradiction].
      destruct (convex_violation pt q q0 q1); [|contradiction].
      destruct H as [<-|[]]. lia.
  - unfold _check_butterfly_no_arb in H. apply in_flat_map in H.
    destruct H as (i & _ & H).
    destruct (nth_error (df_sorted df) (i - 1)); [|contradiction].
    destruct (nth_error (df_sorted df) i); [|contradiction].
    destruct (nth_error (df_sorted df) (i + 1)); [|contradiction].
    destruct (0.01 <? spacing_ratio q q0 q1); [contradiction|].
    destruct pt; destruct (eps <? butterfly_cost q q0 q1);
      try contradiction; destruct H as [<-|[]]; lia.
Qed.

Lemma in_all_violations self df pt idx p :
  In p (all_violations self df pt idx) <->
  p <> idx
  /\ (In p (_check_vertical_no_arb df pt ++ _check_butterfly_no_arb df pt)
      \/ In p (_check_bounds self df pt)).
Proof.
  unfold all_violations. split.
  - intros H. apply in_remove in H. destruct H as [H N].
    apply nodup_In in H. rewrite app_assoc in H. apply in_app_or in H.
    tauto.
  - intros [N H]. apply in_in_remove; trivial. apply nodup_In.
    rewrite app_assoc. apply in_or_app. tauto.
Qed.

(** On a table with the default index and ascending strikes the positions of
    the sorted view are the labels of the table: the quotes that a removal
    deletes are the flagged quotes other than the one at [atm_index]. *)
Lemma removal_by_key_on_canonical self df pt idx :
  canonical df ->
  forall i q, nth_error (rows df) i = Some q ->
    (In (strike q) (removed_strikes self df pt idx) <->
     In (strike q) (flagged_strikes self df pt) /\ Z.of_nat i <> idx).
Proof.
  intros [R A] i q Hq.
  assert (Row : forall l q', In (l, q') df ->
            strike q' = strike q -> l = Z.of_nat i /\ q' = q).
  { intros l q' I E. rewrite <- R in I. unfold reset_index in I.
    apply relabel_nth in I. destruct I as [L N]. rewrite Z.sub_0_r in N.
    pose proof (ascending_strike_inj df _ _ _ _ A N Hq E) as <-.
    split; [lia | congruence]. }
  assert (Here : In (Z.of_nat i, q) df).
  { rewrite <- R. unfold reset_index.
    exact (relabel_In (rows df) 0%Z i q Hq). }
  unfold removed_strikes, flagged_strikes, df_sorted.
  rewrite (sort_values_ascending df A). split.
  - intros H. apply in_map_iff in H. destruct H as (q' & E & H).
    unfold rows in H. apply in_map_iff in H.
    destruct H as ([l q''] & E' & H). simpl in E'. subst q''.
    apply filter_In in H. destruct H as [I M]. simpl in M.
    destruct (Row l q' I E) as [-> ->].
    apply mem_In, in_all_violations in M. destruct M as [N [P|B]].
    + split; trivial. apply in_or_app. left. apply in_flat_map.
      exists (Z.of_nat i). split; trivial.
      rewrite Nat2Z.id, Hq. now left.
    + split; trivial. apply in_or_app. right.
      rewrite check_bounds_filter in B. unfold labels in B.
      apply in_map_iff in B. destruct B as ([l q'] & E' & B).
      simpl in E'. subst l. pose proof B as B'. apply filter_In in B'.
      destruct B' as [I' _].
      assert (q' = q).
      { rewrite <- R in I'. unfold reset_index in I'.
        apply relabel_nth in I'. destruct I' as [_ N'].
        rewrite Z.sub_0_r, Nat2Z.id in N'. congruence. }
      subst q'. apply in_map_iff. exists q. split; trivial.
      unfold rows. apply in_map_iff. now exists (Z.of_nat i, q).
  - intros [H N].
    assert (M : In (Z.of_nat i) (all_violations self df pt idx)).
    { apply in_all_violations. split; trivial.
      apply in_app_or in H. destruct H as [H|H].
      - left. apply in_flat_map in H. destruct H as (p & P & H).
        pose proof (sorted_positions_nonneg df pt p P) as P0.
        destruct (nth_error (rows df) (Z.to_nat p)) as [q1|] eqn:E1;
          [|contradiction].
        destruct H as [E|[]].
        pose proof (ascending_strike_inj df _ _ _ _ A E1 Hq E) as <-.
        now rewrite Z2Nat.id.
      - right. apply in_map_iff in H. destruct H as (q' & E & H).
        unfold rows in H. apply in_map_iff in H.
        destruct H as ([l q''] & E' & H). simpl in E'. subst q''.
        pose proof H as H'. apply filter_In in H'. destruct H' as [I _].
        destruct (Row l q' I E) as [-> ->].
        rewrite check_bounds_filter. unfold labels. apply in_map_iff.
        now exists (Z.of_nat i, q). }
    apply in_map_iff. exists q. split; trivial.
    unfold rows. apply in_map_iff. exists (Z.of_nat i, q). split; trivial.
    apply filter_In. split; trivial. simpl. now apply mem_In.
Qed.

(** C3, the code at the failing input: the checkers flag the quote at strike
    105 (position 1 of the sorted view), the first removal deletes the quote
    at strike 110 (label 1), and the run ends with the anchor alone, where
    the same quotes given in strike order keep 110. *)
Lemma removal_by_position_deletes_other_quote :
  identify_atm_strike cleaner_100 unsorted_calls = Ok 100
  /\ anchor_index unsorted_calls 100 = Ok 0%Z
  /\ flagged_strikes cleaner_100 unsorted_calls call = [105]
  /\ removed_strikes cleaner_100 unsorted_calls call 0 = [110]
  /\ clean_single_dataframe cleaner_100 unsorted_calls call 100 20
     = Ok (table [(100, 5, 5.2)])
  /\ clean_single_dataframe cleaner_100
       (table [(100, 5, 5.2); (105, 6, 6.5); (110, 1, 1.3)]) call 100 20
     = Ok (table [(100, 5, 5.2); (110, 1, 1.3)]).
Proof. repeat split. Qed.

(** ** C4: running the cleaner on its own output *)

(** C4 as amended.  When a run ends in "Clean", running
    [clean_single_dataframe] on the returned table with the same side,
    pricing context and anchor strike returns that table again, with no
    quote removed. *)
Theorem clean_output_is_fixed_point :
  forall self T pt atm max_iter T',
    clean_trace self T pt atm max_iter = Ok (T', CLEAN) ->
    forall max_iter',
      clean_single_dataframe self T' pt atm max_iter' = Ok T'
      /\ clean_trace self T' pt atm (S max_iter') = Ok (T', CLEAN).
Proof.
  intros self T pt atm max_iter T' H max_iter'. unfold clean_trace in H.
  destruct (anchor_index T atm) as [idx|e] eqn:X; [|discriminate].
  cbn [bind] in H. apply anchor_index_row in X.
  destruct (clean_loop_invariant self pt atm (fun _ _ => True))
    with (fuel := max_iter) (df := T) (idx := idx) (out := T') (st := CLEAN)
    as (_ & idx' & _ & X' & V); trivial.
  specialize (V eq_refl).
  unfold clean_single_dataframe, clean_trace. rewrite X'. cbn [bind].
  split.
  - destruct max_iter'; simpl; [reflexivity|]. now rewrite V.
  - simpl. now rewrite V.
Qed.

Lemma clean_output_is_fixed_point_witness :
  clean_single_dataframe cleaner_100
    (table [(90, 12, 12.5); (100, 5, 5.2); (105, 2.8, 10); (110, 1, 1.3)])
    call 100 20
  = Ok (table [(90, 12, 12.5); (100, 5, 5.2); (105, 2.8, 10); (110, 1, 1.3)])
  /\ clean_trace cleaner_100
       (table [(90, 12, 12.5); (100, 5, 5.2); (105, 2.8, 10); (110, 1, 1.3)])
       call 100 21
     = Ok (table [(90, 12, 12.5); (100, 5, 5.2); (105, 2.8, 10);
                  (110, 1, 1.3)], CLEAN).
Proof.
  apply (clean_output_is_fixed_point cleaner_100 scenario_A call 100 20).
  reflexivity.
Defined.

(** C4, counterexample: after the 20 iterations of the default [max_iter]
    the returned table still has violations, and a second run removes two
    more quotes. *)
Lemma rerun_after_exhaustion_removes_more :
  identify_atm_strike cleaner_100 cascade = Ok 100
  /\ identify_atm_strike cleaner_100
       (table [(100, 0.5, 1); (121, 2, 100); (122, 2, 100)]) = Ok 100
  /\ clean_single_dataframe cleaner_100 cascade call 100 20
     = Ok (table [(100, 0.5, 1); (121, 2, 100); (122, 2, 100)])
  /\ clean_single_dataframe cleaner_100
       (table [(100, 0.5, 1); (121, 2, 100); (122, 2, 100)]) call 100 20
     = Ok (table [(100, 0.5, 1)])
  /\ table [(100, 0.5, 1)]
     <> table [(100, 0.5, 1); (121, 2, 100); (122, 2, 100)].
Proof. repeat split; try reflexivity. discriminate. Qed.

(** ** C5: monotonicity of a table left through "Clean" *)

(** A monotonicity violation between neighbours of a sorted table puts the
    position of the higher strike in the result of the vertical checker. *)
Lemma check_vertical_flags_higher df pt i lo hi :
  ascending df ->
  nth_error (rows df) i = Some lo ->
  nth_error (rows df) (S i) = Some hi ->
  mono_violation pt lo hi = true ->
  In (Z.of_nat (S i)) (_check_vertical_no_arb df pt).
Proof.
  intros A Lo Hi V. unfold _check_vertical_no_arb, df_sorted.
  rewrite (sort_values_ascending df A).
  apply nodup_In. apply in_or_app. left. apply in_flat_map.
  exists i. split.
  - apply in_seq.
    assert (L : (S i < length (rows df))%nat)
      by (apply nth_error_Some; congruence).
    lia.
  - replace (i + 1)%nat with (S i) by lia. rewrite Lo, Hi, V. now left.
Qed.

Lemma spec_monotone_of_check pt lo hi :
  priced lo -> priced hi ->
  mono_violation pt lo hi = false -> spec_monotone pt lo hi = true.
Proof.
  intros [Bl Al] [Bh Ah] V. destruct pt; simpl in *.
  - rewrite (FloatOrder.leb_negb_ltb _ _ Bh Al), V. reflexivity.
  - rewrite (FloatOrder.leb_negb_ltb _ _ Bl Ah), V. reflexivity.
Qed.

(** C5 as amended.  For a table given with the default index and ascending
    strikes, when the run ends in "Clean" the returned table is again of
    that form, and every pair of adjacent strikes whose higher strike is not
    the anchor strike satisfies the inequality of the side
    (calls: ask at the lower strike >= bid at the higher one;
    puts: bid at the lower strike <= ask at the higher one), the prices
    compared being numbers. *)
Theorem clean_table_monotone_off_anchor :
  forall self df pt atm max_iter out,
    canonical df ->
    clean_trace self df pt atm max_iter = Ok (out, CLEAN) ->
    canonical out
    /\ forall i lo hi,
         nth_error (rows out) i = Some lo ->
         nth_error (rows out) (S i) = Some hi ->
         (strike hi =? atm) = false ->
         priced lo -> priced hi ->
         spec_monotone pt lo hi = true.
Proof.
  intros self df pt atm max_iter out C H. unfold clean_trace in H.
  destruct (anchor_index df atm) as [idx|e] eqn:X; [|discriminate].
  cbn [bind] in H. apply anchor_index_row in X.
  destruct (clean_loop_invariant self pt atm (fun d _ => canonical d))
    with (fuel := max_iter) (df := df) (idx := idx) (out := out) (st := CLEAN)
    as (_ & idx' & [R A] & X' & V); trivial.
  { intros d0 i0 d i' [_ A0] _ D _. exact (canonical_removal d0 _ d A0 D). }
  specialize (V eq_refl). split; [split; trivial|].
  intros i lo hi Lo Hi NA Pl Ph.
  apply spec_monotone_of_check; trivial.
  destruct (mono_violation pt lo hi) eqn:M; [exfalso | reflexivity].
  pose proof (check_vertical_flags_higher out pt i lo hi A Lo Hi M) as F.
  assert (E : Z.of_nat (S i) = idx').
  { unfold all_violations in V. apply (remove_nil_inv _ _ V).
    apply nodup_In. apply in_or_app. now left. }
  apply anchor_index_row in X'. destruct X' as [q Q].
  pose proof (find_some _ _ Q) as [I Sq]. simpl in Sq.
  rewrite <- R in I. unfold reset_index in I. apply relabel_nth in I.
  destruct I as [_ N]. rewrite <- E in N.
  replace (Z.to_nat (Z.of_nat (S i) - 0)) with (S i) in N by lia.
  congruence.
Qed.

Lemma clean_table_monotone_off_anchor_witness :
  canonical (table [(90, 12, 12.5); (100, 5, 5.2); (105, 2.8, 10);
                    (110, 1, 1.3)])
  /\ forall i lo hi,
       nth_error (rows (table [(90, 12, 12.5); (100, 5, 5.2); (105, 2.8, 10);
                               (110, 1, 1.3)])) i = Some lo ->
       nth_error (rows (table [(90, 12, 12.5); (100, 5, 5.2); (105, 2.8, 10);
                               (110, 1, 1.3)])) (S i) = Some hi ->
       (strike hi =? 100) = false ->
       priced lo -> priced hi ->
       spec_monotone call lo hi = true.
Proof.
  apply (clean_table_monotone_off_anchor cleaner_100 scenario_A call 100 20).
  - split; [reflexivity | repeat constructor].
  - reflexivity.
Defined.

(** C5, counterexample: the run ends in "Clean" with the table unchanged,
    and the ask at strike 90 is below the bid at strike 100. *)
Lemma clean_table_not_monotone_at_anchor :
  identify_atm_strike cleaner_100 anchor_breaks_monotonicity = Ok 100
  /\ clean_trace cleaner_100 anchor_breaks_monotonicity call 100 20
     = Ok (anchor_breaks_monotonicity, CLEAN)
  /\ nth_error (rows anchor_breaks_monotonicity) 0 = Some (mkQuote 90 10 10.5)
  /\ nth_error (rows anchor_breaks_monotonicity) 1 = Some (mkQuote 100 11 11.5)
  /\ spec_monotone call (mkQuote 90 10 10.5) (mkQuote 100 11 11.5) = false.
Proof. repeat split. Qed.

(** ** C6: the butterfly checker *)

(** C6. On a table sorted ascending by strike whose spacing ratios are
    numbers, a position is in the result of [_check_butterfly_no_arb] iff it
    is the middle of an interior triplet with
    [|(K_i - K_{i-1}) - (K_{i+1} - K_i)| / K_i <= 0.01] and
    [bid_{i-1} - 2 ask_i + bid_{i+1} > 1e-10]; calls and puts give the same
    result. *)
Theorem check_butterfly_correct :
  forall df,
    ascending df ->
    (forall i q1 q2 q3,
        nth_error (rows df) i = Some q1 ->
        nth_error (rows df) (S i) = Some q2 ->
        nth_error (rows df) (S (S i)) = Some q3 ->
        is_nan (spacing_ratio q1 q2 q3) = false) ->
    (forall pt p,
        In p (_check_butterfly_no_arb df pt) <->
        exists i q1 q2 q3,
          p = Z.of_nat (S i)
          /\ nth_error (rows df) i = Some q1
          /\ nth_error (rows df) (S i) = Some q2
          /\ nth_error (rows df) (S (S i)) = Some q3
          /\ (abs ((strike q2 - strike q1) - (strike q3 - strike q2))
              / strike q2 <=? 0.01) = true
          /\ (1e-10 <? bid q1 - 2 * ask q2 + bid q3) = true)
    /\ _check_butterfly_no_arb df call = _check_butterfly_no_arb df put.
Proof.
  intros df Hs Hn. split; [|reflexivity].
  assert (N01 : is_nan 0.01 = false) by reflexivity.
  intros pt p. unfold _check_butterfly_no_arb, df_sorted.
  rewrite (sort_values_ascending df Hs). rewrite in_flat_map. split.
  - intros (i & Hi & Hp). apply in_seq in Hi.
    destruct i as [|i]; [lia|].
    replace (S i - 1)%nat with i in Hp by lia.
    replace (S i + 1)%nat with (S (S i)) in Hp by lia.
    destruct (nth_error (rows df) i) as [q1|] eqn:E1; [|contradiction].
    destruct (nth_error (rows df) (S i)) as [q2|] eqn:E2; [|contradiction].
    destruct (nth_error (rows df) (S (S i))) as [q3|] eqn:E3; [|contradiction].
    destruct (0.01 <? spacing_ratio q1 q2 q3) eqn:R; [contradiction|].
    assert (C : (eps <? butterfly_cost q1 q2 q3) = true).
    { destruct pt; destruct (eps <? butterfly_cost q1 q2 q3);
        trivial; contradiction. }
    assert (P : p = Z.of_nat (S i)).
    { destruct pt; rewrite C in Hp; destruct Hp as [E|[]]; now subst. }
    exists i, q1, q2, q3. repeat split; trivial.
    fold (spacing_ratio q1 q2 q3).
    rewrite (FloatOrder.leb_negb_ltb _ _ (Hn i q1 q2 q3 E1 E2 E3) N01).
    now rewrite R.
  - intros (i & q1 & q2 & q3 & P & E1 & E2 & E3 & R & C).
    exists (S i). split.
    + apply in_seq.
      assert (L : (S (S i) < length (rows df))%nat)
        by (apply nth_error_Some; congruence).
      lia.
    + replace (S i - 1)%nat with i by lia.
      replace (S i + 1)%nat with (S (S i)) by lia.
      rewrite E1, E2, E3.
      fold (spacing_ratio q1 q2 q3) in R.
      rewrite (FloatOrder.leb_negb_ltb _ _ (Hn i q1 q2 q3 E1 E2 E3) N01) in R.
      apply negb_true_iff in R. rewrite R.
      fold (butterfly_cost q1 q2 q3) in C. fold eps in C.
      destruct pt; rewrite C; left; now subst.
Qed.

Lemma check_butterfly_correct_witness :
  In 1%Z (_check_butterfly_no_arb butterfly_3 call) <->
  exists i q1 q2 q3,
    1%Z = Z.of_nat (S i)
    /\ nth_error (rows butterfly_3) i = Some q1
    /\ nth_error (rows butterfly_3) (S i) = Some q2
    /\ nth_error (rows butterfly_3) (S (S i)) = Some q3
    /\ (abs ((strike q2 - strike q1) - (strike q3 - strike q2))
        / strike q2 <=? 0.01) = true
    /\ (1e-10 <? bid q1 - 2 * ask q2 + bid q3) = true.
Proof.
  refine (proj1 (check_butterfly_correct butterfly_3 _ _) call 1%Z).
  - repeat constructor.
  - intros [|[|i]] q1 q2 q3 E1 E2 E3; simpl in *; try discriminate.
    injection E1 as <-. injection E2 as <-. injection E3 as <-. reflexivity.
Defined.

(** ** C7: the bounds checker *)

Lemma py_max_spec x : py_max x 0 = spec_max0 x.
Proof. reflexivity. Qed.

Lemma bounds_violation_spec self pt q :
  bounds_violation self pt q = true <-> spec_bounds_violation self pt q.
Proof.
  unfold bounds_violation, spec_bounds_violation, spec_lower, spec_upper, eps.
  destruct pt; rewrite py_max_spec, orb_true_iff; reflexivity.
Qed.

(** C7. [_check_bounds] returns, in row order, the labels of exactly the rows
    whose own bid is below [lower - eps] or whose own ask is above
    [upper + eps], with the bounds of the side; in a table with distinct
    labels a quote is flagged iff it violates its bounds, whatever the
    other rows are. *)
Theorem check_bounds_correct :
  forall self df pt,
    _check_bounds self df pt =
      labels (filter (fun r => bounds_violation self pt (snd r)) df)
    /\ (NoDup (labels df) ->
        forall idx q, In (idx, q) df ->
          (In idx (_check_bounds self df pt) <->
           spec_bounds_violation self pt q)).
Proof.
  intros self df pt. split; [apply check_bounds_filter|].
  intros ND idx q Hin. rewrite check_bounds_filter, <- bounds_violation_spec.
  unfold labels. rewrite in_map_iff. split.
  - intros ([idx' q'] & E & Hf). simpl in E. subst idx'.
    apply filter_In in Hf. destruct Hf as [Hin' V]. simpl in V.
    assert (q' = q); [|now subst].
    clear V. induction df as [|[l0 q0] df IH]; [contradiction|].
    simpl in ND. inversion ND as [|? ? Hn ND']; subst.
    destruct Hin as [E|Hin], Hin' as [E'|Hin'].
    + congruence.
    + injection E as -> ->. exfalso. apply Hn.
      unfold labels. apply in_map_iff. now exists (idx, q').
    + injection E' as -> ->. exfalso. apply Hn.
      unfold labels. apply in_map_iff. now exists (idx, q).
    + now apply IH.
  - intros V. exists (idx, q). split; [reflexivity|].
    apply filter_In. now split.
Qed.

Lemma check_bounds_correct_witness :
  In 1%Z (_check_bounds cleaner_100
            (table [(100, 5, 5.5); (105, 3, 101)]) call)
  <-> spec_bounds_violation cleaner_100 call (mkQuote 105 3 101).
Proof.
  apply (proj2 (check_bounds_correct cleaner_100
                  (table [(100, 5, 5.5); (105, 3, 101)]) call)).
  - repeat constructor; simpl; intuition discriminate.
  - simpl. right. left. reflexivity.
Defined.

(** ** C8: the ATM selector *)

Lemma argmin_loop_lt l :
  forall mp mi i, (mi < i)%nat ->
    (argmin_loop mp mi i l < i + length l)%nat.
Proof.
  induction l as [|x l IH]; intros mp mi i H; simpl; [lia|].
  destruct (negb (mp <=? x)).
  - destruct (is_nan x); [lia|].
    specialize (IH x i (S i)). lia.
  - specialize (IH mp mi (S i)). lia.
Qed.

Lemma argmin_loop_min l :
  forall pre mp mi,
    Forall (fun x => is_nan x = false) (pre ++ l) ->
    nth_error pre mi = Some mp ->
    (forall x, In x pre -> (mp <=? x) = true) ->
    (forall j x, (j < mi)%nat -> nth_error pre j = Some x -> (mp <? x) = true) ->
    exists m,
      nth_error (pre ++ l) (argmin_loop mp mi (length pre) l) = Some m
      /\ (forall x, In x (pre ++ l) -> (m <=? x) = true)
      /\ (forall j x, (j < argmin_loop mp mi (length pre) l)%nat ->
            nth_error (pre ++ l) j = Some x -> (m <? x) = true).
Proof.
  induction l as [|x l IH]; intros pre mp mi N Hmi Hle Hlt; simpl.
  - rewrite app_nil_r. exists mp. repeat split; trivial.
  - assert (Nx : is_nan x = false).
    { rewrite Forall_forall in N. apply N. apply in_or_app. right. now left. }
    assert (Nmp : is_nan mp = false).
    { rewrite Forall_forall in N. apply N. apply in_or_app. left.
      eapply nth_error_In; eauto. }
    assert (Lmi : (mi < length pre)%nat)
      by (apply nth_error_Some; congruence).
    replace (pre ++ x :: l) with ((pre ++ [x]) ++ l) in *
      by (rewrite <- app_assoc; reflexivity).
    replace (S (length pre)) with (length (pre ++ [x]))
      by (rewrite length_app; simpl; lia).
    rewrite (FloatOrder.leb_negb_ltb mp x Nmp Nx), negb_involutive.
    destruct (x <? mp) eqn:C.
    + rewrite Nx.
      apply (IH (pre ++ [x]) x (length pre)); trivial.
      * rewrite nth_error_app2 by lia. rewrite Nat.sub_diag. reflexivity.
      * intros y Hy. apply in_app_or in Hy. destruct Hy as [Hy|[<-|[]]].
        -- apply FloatOrder.ltb_leb.
           eapply FloatOrder.ltb_leb_trans; [exact C | now apply Hle].
        -- now apply FloatOrder.leb_refl.
      * intros j y Hj Hy. rewrite nth_error_app1 in Hy by lia.
        eapply FloatOrder.ltb_leb_trans; [exact C|].
        apply Hle. eapply nth_error_In; eauto.
    + apply IH; trivial.
      * rewrite nth_error_app1 by lia. exact Hmi.
      * intros y Hy. apply in_app_or in Hy. destruct Hy as [Hy|[<-|[]]].
        -- now apply Hle.
        -- rewrite (FloatOrder.leb_negb_ltb mp x Nmp Nx), C. reflexivity.
      * intros j y Hj Hy. rewrite nth_error_app1 in Hy by lia.
        eapply Hlt; eauto.
Qed.

Lemma np_argmin_min x l :
  Forall (fun y => is_nan y = false) (x :: l) ->
  exists i m,
    np_argmin (x :: l) = Ok i
    /\ nth_error (x :: l) i = Some m
    /\ (forall y, In y (x :: l) -> (m <=? y) = true)
    /\ (forall j y, (j < i)%nat -> nth_error (x :: l) j = Some y ->
          (m <? y) = true).
Proof.
  intros N. assert (Nx : is_nan x = false) by (inversion N; trivial).
  destruct (argmin_loop_min l [x] x 0%nat) as (m & Hm & Hle & Hlt); trivial.
  - intros y [<-|[]]. now apply FloatOrder.leb_refl.
  - intros j y Hj. lia.
  - exists (argmin_loop x 0 1 l), m. simpl np_argmin. rewrite Nx.
    repeat split; trivial.
Qed.

Lemma np_argmin_bound l i : np_argmin l = Ok i -> (i < length l)%nat.
Proof.
  destruct l as [|x l]; simpl; [discriminate|].
  destruct (is_nan x); intros H; injection H as <-; [lia|].
  pose proof (argmin_loop_lt l x 0%nat 1%nat). lia.
Qed.

(** C8 as amended.  [identify_atm_strike] raises only on the empty table
    ([ValueError]); on a non-empty table whose distances to the spot midpoint
    are numbers it returns the strike of the first row, in the row order of
    the table, among those at minimal distance. *)
Theorem identify_atm_strike_first_minimum :
  forall self df,
    (forall e, identify_atm_strike self df = Raise e ->
               df = [] /\ e = ValueError)
    /\ (df <> [] ->
        Forall (fun q => is_nan (atm_distance self (strike q)) = false)
               (rows df) ->
        exists i q,
          identify_atm_strike self df = Ok (strike q)
          /\ nth_error (rows df) i = Some q
          /\ (forall q', In q' (rows df) ->
                (atm_distance self (strike q)
                 <=? atm_distance self (strike q')) = true)
          /\ (forall j q', (j < i)%nat -> nth_error (rows df) j = Some q' ->
                (atm_distance self (strike q)
                 <? atm_distance self (strike q')) = true)).
Proof.
  intros self df. unfold identify_atm_strike.
  set (d := fun k => abs (k - (Sb self + Sa self) / 2)).
  split.
  - intros e H. destruct df as [|r df]; [simpl in H; now injection H as <-|].
    exfalso.
    destruct (np_argmin (map d (map strike (rows (r :: df))))) as [i|e'] eqn:A.
    + cbn [bind] in H. apply np_argmin_bound in A. rewrite length_map in A.
      apply nth_error_Some in A.
      destruct (nth_error (map strike (rows (r :: df))) i);
        [discriminate | now apply A].
    + simpl in A. destruct (is_nan (d (strike (snd r)))); discriminate.
  - intros NE N. destruct df as [|r df]; [congruence|].
    assert (N' : Forall (fun y => is_nan y = false)
                   (d (strike (snd r)) :: map d (map strike (rows df)))).
    { change (Forall (fun y => is_nan y = false)
                (map d (map strike (rows (r :: df))))).
      rewrite map_map, Forall_map. exact N. }
    destruct (np_argmin_min _ _ N') as (i & m & A & Hm & Hle & Hlt).
    change (d (strike (snd r)) :: map d (map strike (rows df)))
      with (map d (map strike (rows (r :: df)))) in *.
    rewrite A. simpl bind. rewrite map_map in Hm, Hle, Hlt.
    rewrite nth_error_map in Hm.
    destruct (nth_error (rows (r :: df)) i) as [q|] eqn:Q; [|discriminate].
    simpl in Hm. injection Hm as <-.
    exists i, q.
    change (strike (snd r) :: map strike (rows df))
      with (map strike (rows (r :: df))).
    rewrite nth_error_map, Q. simpl option_map. repeat split; trivial.
    + intros q' Hq'. apply Hle. apply in_map_iff. now exists q'.
    + intros j q' Hj Hq'. apply (Hlt j); trivial.
      rewrite nth_error_map, Hq'. reflexivity.
Qed.

Lemma identify_atm_strike_first_minimum_witness :
  exists i q,
    identify_atm_strike cleaner_100 tie_table = Ok (strike q)
    /\ nth_error (rows tie_table) i = Some q
    /\ (forall q', In q' (rows tie_table) ->
          (atm_distance cleaner_100 (strike q)
           <=? atm_distance cleaner_100 (strike q')) = true)
    /\ (forall j q', (j < i)%nat -> nth_error (rows tie_table) j = Some q' ->
          (atm_distance cleaner_100 (strike q)
           <? atm_distance cleaner_100 (strike q')) = true).
Proof.
  apply (proj2 (identify_atm_strike_first_minimum cleaner_100 tie_table)).
  - discriminate.
  - repeat constructor.
Defined.

(** C8, counterexample: strikes 105 and 95 are both at distance 5; the
    selector returns 105, the first in row order, not 95. *)
Lemma atm_tie_follows_row_order :
  identify_atm_strike cleaner_100 tie_table = Ok 105
  /\ ~ spec_atm_selection cleaner_100 tie_table 105.
Proof.
  split; [reflexivity|]. intros [_ T].
  specialize (T (mkQuote 95 8 8.5)). simpl in T.
  assert (F : (95 <? 105) = false) by (apply T; [right; now left | reflexivity]).
  discriminate.
Qed.

(** ** C9: tables and side labels of different lengths *)

Lemma batch_loop_length cleaner pairs :
  forall acc counts cleaned counts',
    batch_loop cleaner pairs acc counts = Ok (cleaned, counts') ->
    length cleaned = (length acc + length pairs)%nat
    /\ length counts' = (length counts + length pairs)%nat.
Proof.
  induction pairs as [|[df o_type] pairs IH]; intros acc counts cleaned counts' H;
    simpl in H.
  - injection H as <- <-. simpl. lia.
  - destruct (identify_atm_strike cleaner df) as [atm|e]; [|discriminate].
    simpl in H.
    destruct (clean_single_dataframe cleaner df o_type atm 20) as [dc|e];
      [|discriminate].
    simpl in H. apply IH in H. rewrite !length_app in H. simpl in *. lia.
Qed.

Lemma combine_truncate {A B} (l : list A) (l' : list B) :
  combine l l' =
  combine (firstn (Nat.min (length l) (length l')) l)
          (firstn (Nat.min (length l) (length l')) l').
Proof.
  rewrite <- combine_firstn, <- (length_combine l l'). symmetry. apply firstn_all.
Qed.

(** C9 as amended.  [zip] stops at the shorter list: the batch result is
    that of the two lists cut to their common length, and when the batch
    returns, it returns that many tables and that many counts.  No test of
    the lengths is made and nothing is raised for them. *)
Theorem batch_truncates_to_shorter :
  forall np_exp dfs tys spot_bid spot_ask r T,
    let m := Nat.min (length dfs) (length tys) in
    clean_all_dataframes np_exp dfs tys spot_bid spot_ask r T
    = clean_all_dataframes np_exp (firstn m dfs) (firstn m tys)
        spot_bid spot_ask r T
    /\ (forall cleaned report,
          clean_all_dataframes np_exp dfs tys spot_bid spot_ask r T
          = Ok (cleaned, report) ->
          length cleaned = m /\ length (removed_counts report) = m).
Proof.
  intros np_exp dfs tys sb sa r T m. unfold clean_all_dataframes. split.
  - unfold m. now rewrite <- combine_truncate.
  - intros cleaned report H.
    destruct (batch_loop (init np_exp sb sa r T 0) (combine dfs tys) [] [])
      as [[cl cn]|e] eqn:E; [|discriminate].
    simpl in H. injection H as <- <-. simpl.
    apply batch_loop_length in E. rewrite length_combine in E. exact E.
Qed.

Lemma batch_truncates_to_shorter_witness :
  length (fst (calls_3 :: nil, mkReport [0%Z] [])) = 1%nat
  /\ length (removed_counts (snd (calls_3 :: nil, mkReport [0%Z] []))) = 1%nat.
Proof.
  apply (proj2 (batch_truncates_to_shorter exp_at_zero
                  [calls_3; calls_3] [call] 100 100 0 1)).
  reflexivity.
Defined.

(** C9, counterexample: two tables and one side label; no error, the second
    table is silently left out. *)
Lemma batch_mismatch_not_raised :
  length [calls_3; calls_3] <> length [call]
  /\ clean_all_dataframes exp_at_zero [calls_3; calls_3] [call] 100 100 0 1
     = Ok ([calls_3], mkReport [0%Z] []).
Proof. split; [discriminate | reflexivity]. Qed.

(** ** C10: the anchor strike must occur in the table *)

(** C10. When [atm_strike] does not occur in the strike column,
    [clean_single_dataframe] raises at the anchor resolution of its second
    line ([IndexError]), whatever the checkers and the removal would have
    done; it returns a table only when [atm_strike] occurs in the input. *)
Theorem clean_requires_anchor_strike :
  forall self df pt atm max_iter,
    (strike_present df atm = false ->
     clean_single_dataframe self df pt atm max_iter = Raise IndexError)
    /\ (forall out,
          clean_single_dataframe self df pt atm max_iter = Ok out ->
          strike_present df atm = true).
Proof.
  intros self df pt atm max_iter.
  assert (A : strike_present df atm = false ->
              clean_single_dataframe self df pt atm max_iter = Raise IndexError).
  { intros H. unfold clean_single_dataframe, clean_trace.
    rewrite anchor_index_find.
    destruct (find (fun r => strike (snd r) =? atm) df) as [[l q]|] eqn:F.
    - assert (P : strike_present df atm = true)
        by (apply strike_present_find; eauto).
      congruence.
    - reflexivity. }
  split; [exact A|].
  intros out H. destruct (strike_present df atm) eqn:P; [reflexivity|].
  rewrite (A eq_refl) in H. discriminate.
Qed.

Lemma clean_requires_anchor_strike_witness :
  clean_single_dataframe cleaner_100 calls_3 call 101 20 = Raise IndexError.
Proof.
  apply (proj1 (clean_requires_anchor_strike cleaner_100 calls_3 call 101 20)).
  reflexivity.
Defined.

(** ** What a run keeps of its input *)

Lemma subseq_refl {A} (l : list A) : subseq l l.
Proof.
  induction l as [|x l IH]; [apply subseq_nil | now apply subseq_keep].
Qed.

Lemma subseq_trans {A} (l1 l2 l3 : list A) :
  subseq l1 l2 -> subseq l2 l3 -> subseq l1 l3.
Proof.
  intros H12 H23. revert l1 H12.
  induction H23 as [|x l2 l3 H IH|x l2 l3 H IH]; intros l1 H12.
  - exact H12.
  - apply subseq_skip. now apply IH.
  - inversion H12; subst.
    + apply subseq_skip. now apply IH.
    + apply subseq_keep. now apply IH.
Qed.

Lemma subseq_filter {A} (g : A -> bool) l : subseq (filter g l) l.
Proof.
  induction l as [|x l IH]; simpl; [apply subseq_nil|].
  destruct (g x); [now apply subseq_keep | now apply subseq_skip].
Qed.

Lemma subseq_map {A B} (f : A -> B) l1 l2 :
  subseq l1 l2 -> subseq (map f l1) (map f l2).
Proof.
  induction 1 as [|x l1 l2 H IH|x l1 l2 H IH]; simpl.
  - apply subseq_nil.
  - now apply subseq_skip.
  - now apply subseq_keep.
Qed.

Lemma subseq_length {A} (l1 l2 : list A) :
  subseq l1 l2 -> (length l1 <= length l2)%nat.
Proof. induction 1; simpl; lia. Qed.

Lemma subseq_In {A} (l1 l2 : list A) x : subseq l1 l2 -> In x l1 -> In x l2.
Proof.
  induction 1 as [|y l1 l2 H IH|y l1 l2 H IH]; simpl; intros I; auto.
  destruct I; auto.
Qed.

Lemma rows_reset_index d : rows (reset_index d) = rows d.
Proof. unfold reset_index. apply rows_relabel. Qed.

Lemma length_rows (df : DataFrame) : length (rows df) = length df.
Proof. unfold rows. apply length_map. Qed.

Lemma length_reset_index d : length (reset_index d) = length d.
Proof. rewrite <- !length_rows. now rewrite rows_reset_index. Qed.

Lemma reset_index_idem d : default_index (reset_index d).
Proof. unfold default_index, reset_index. now rewrite rows_relabel. Qed.

Lemma filter_drops_one {A} (g : A -> bool) l x :
  In x l -> g x = false -> (length (filter g l) < length l)%nat.
Proof.
  induction l as [|y l IH]; simpl; [contradiction|].
  intros [->|I] G.
  - rewrite G. pose proof (filter_length_le g l). lia.
  - specialize (IH I G). destruct (g y); simpl; lia.
Qed.

(** A removal with a non-empty set takes at least one row out. *)
Lemma drop_shorter df v vs d :
  drop df (v :: vs) = Ok d -> (length d < length df)%nat.
Proof.
  unfold drop. destruct (forallb _ (v :: vs)) eqn:F; [|discriminate].
  intros E. injection E as <-. simpl in F. apply andb_true_iff in F.
  destruct F as [M _]. apply mem_In in M. unfold labels in M.
  apply in_map_iff in M. destruct M as ([l q] & E & I). simpl in E. subst l.
  apply (filter_drops_one _ df (v, q)); trivial. simpl.
  rewrite Z.eqb_refl. reflexivity.
Qed.

Lemma drop_subseq df ls d : drop df ls = Ok d -> subseq (rows d) (rows df).
Proof.
  intros D. apply drop_Ok in D. subst d. apply subseq_map, subseq_filter.
Qed.

Lemma clean_loop_subseq self pt atm fuel df idx out st :
  (exists q, anchor_row df atm = Some (idx, q)) ->
  clean_loop self pt atm fuel df idx = Ok (out, st) ->
  subseq (rows out) (rows df).
Proof.
  intros A H.
  destruct (clean_loop_invariant self pt atm
              (fun d _ => subseq (rows d) (rows df)))
    with (fuel := fuel) (df := df) (idx := idx) (out := out) (st := st)
    as (_ & idx' & S & _); trivial.
  - intros d0 i0 d i' I _ D _. rewrite rows_reset_index.
    eapply subseq_trans; [exact (drop_subseq d0 _ d D) | exact I].
  - apply subseq_refl.
Qed.

Lemma clean_trace_subseq self df pt atm max_iter out st :
  clean_trace self df pt atm max_iter = Ok (out, st) ->
  subseq (rows out) (rows df).
Proof.
  intros H. unfold clean_trace in H.
  destruct (anchor_index df atm) as [idx|e] eqn:X; [|discriminate].
  cbn [bind] in H. apply anchor_index_row in X.
  exact (clean_loop_subseq self pt atm max_iter df idx out st X H).
Qed.

(** X1. The rows of the returned table are rows of the input, unmodified
    and in their input order: cleaning only takes rows out. *)
Theorem clean_returns_subsequence :
  forall self df pt atm max_iter out st,
    clean_trace self df pt atm max_iter = Ok (out, st) ->
    subseq (rows out) (rows df)
    /\ (length out <= length df)%nat
    /\ (forall q, In q (rows out) -> In q (rows df)).
Proof.
  intros self df pt atm max_iter out st H.
  pose proof (clean_trace_subseq self df pt atm max_iter out st H) as S.
  split; [exact S|]. split.
  - rewrite <- !length_rows. now apply subseq_length.
  - intros q. now apply subseq_In.
Qed.

Lemma clean_returns_subsequence_witness :
  subseq (rows scenario_A_cleaned) (rows scenario_A)
  /\ (length scenario_A_cleaned <= length scenario_A)%nat
  /\ (forall q, In q (rows scenario_A_cleaned) ->
                In q (rows scenario_A)).
Proof.
  apply (clean_returns_subsequence cleaner_100 scenario_A call 100 20 _ CLEAN).
  reflexivity.
Defined.

(** X2. Either no removal took place and the returned table is the input,
    labels included, or the returned table is strictly shorter than the
    input and carries the default index [0 .. n-1]. *)
Theorem clean_returns_input_or_reindexed :
  forall self df pt atm max_iter out st,
    clean_trace self df pt atm max_iter = Ok (out, st) ->
    out = df
    \/ ((length out < length df)%nat /\ default_index out).
Proof.
  intros self df pt atm max_iter out st H. unfold clean_trace in H.
  destruct (anchor_index df atm) as [idx|e] eqn:X; [|discriminate].
  cbn [bind] in H. apply anchor_index_row in X.
  destruct (clean_loop_invariant self pt atm
              (fun d _ => d = df
                          \/ ((length d < length df)%nat /\ default_index d)))
    with (fuel := max_iter) (df := df) (idx := idx) (out := out) (st := st)
    as (_ & idx' & I & _); trivial.
  - intros d0 i0 d i' I V D _. right. split; [|apply reset_index_idem].
    rewrite length_reset_index.
    destruct (all_violations self d0 pt i0) as [|v vs]; [congruence|].
    apply drop_shorter in D. destruct I as [->|[L _]]; lia.
  - now left.
Qed.

Lemma clean_returns_input_or_reindexed_witness :
  scenario_A_cleaned
  = scenario_A
  \/ ((length scenario_A_cleaned < length scenario_A)%nat
      /\ default_index scenario_A_cleaned).
Proof.
  apply (clean_returns_input_or_reindexed cleaner_100 scenario_A call 100 20
           _ CLEAN).
  reflexivity.
Defined.

(** ** The iteration cap *)

Lemma clean_loop_exhausted self pt atm :
  forall fuel df idx out,
    (exists q, anchor_row df atm = Some (idx, q)) ->
    clean_loop self pt atm fuel df idx = Ok (out, ITER_EXHAUSTED) ->
    (length out + fuel <= length df)%nat.
Proof.
  induction fuel as [|fuel IH]; intros df idx out [q A] H; simpl in H.
  - injection H as <-. lia.
  - destruct (all_violations self df pt idx) as [|v vs] eqn:V;
      [discriminate|].
    destruct (drop df (v :: vs)) as [d|e] eqn:D; [|discriminate].
    cbn [bind] in H. pose proof (drop_shorter df v vs d D) as L.
    rewrite <- V in D.
    destruct (anchor_survives_removal self pt atm df idx q d A D)
      as (idx' & A' & X & P).
    unfold strike_present in P. rewrite P, X in H. cbn [bind] in H.
    apply IH in H; [|eauto]. rewrite length_reset_index in H. lia.
Qed.

(** X3. When the run stops because the [max_iter] iterations are used up,
    every one of them removed at least one quote: the returned table has at
    least [max_iter] rows less than the input. *)
Theorem iteration_cap_means_max_iter_removals :
  forall self df pt atm max_iter out,
    clean_trace self df pt atm max_iter = Ok (out, ITER_EXHAUSTED) ->
    (length out + max_iter <= length df)%nat.
Proof.
  intros self df pt atm max_iter out H. unfold clean_trace in H.
  destruct (anchor_index df atm) as [idx|e] eqn:X; [|discriminate].
  cbn [bind] in H. apply anchor_index_row in X.
  now apply (clean_loop_exhausted self pt atm max_iter df idx out).
Qed.

Lemma iteration_cap_means_max_iter_removals_witness :
  (length cascade_rest + 20
   <= length cascade)%nat.
Proof.
  apply (iteration_cap_means_max_iter_removals cleaner_100 cascade call 100).
  reflexivity.
Defined.

Lemma short_table_exit self df pt atm max_iter out st :
  (length df <= max_iter)%nat ->
  clean_trace self df pt atm max_iter = Ok (out, st) ->
  st = CLEAN.
Proof.
  intros L H.
  destruct (clean_trace_keeps_anchor self df pt atm max_iter out st H)
    as (NL & idx & idx' & q & _ & A').
  destruct st; trivial; [congruence|].
  unfold clean_trace in H.
  destruct (anchor_index df atm) as [i0|e] eqn:X; [|discriminate].
  cbn [bind] in H. apply anchor_index_row in X.
  apply (clean_loop_exhausted self pt atm max_iter df i0 out X) in H.
  apply find_some in A'. destruct A' as [I _].
  destruct out; [contradiction | simpl in H; lia].
Qed.

(** X4. A table with at most [max_iter] rows is always cleaned to the end:
    when the call returns, it left the loop through "Clean". *)
Theorem short_table_converges :
  forall self df pt atm max_iter out st,
    (length df <= max_iter)%nat ->
    clean_trace self df pt atm max_iter = Ok (out, st) ->
    st = CLEAN.
Proof.
  intros self df pt atm max_iter out st L H.
  exact (short_table_exit self df pt atm max_iter out st L H).
Qed.

Lemma short_table_converges_witness : CLEAN = CLEAN.
Proof.
  apply (short_table_converges cleaner_100 scenario_A call 100 20
           scenario_A_cleaned).
  - simpl. lia.
  - reflexivity.
Defined.

Lemma clean_loop_more_fuel self pt atm :
  forall fuel df idx out,
    clean_loop self pt atm fuel df idx = Ok (out, CLEAN) ->
    forall fuel', (fuel <= fuel')%nat ->
      clean_loop self pt atm fuel' df idx = Ok (out, CLEAN).
Proof.
  induction fuel as [|fuel IH]; intros df idx out H fuel' L; simpl in H;
    [discriminate|].
  destruct fuel' as [|fuel']; [lia|]. simpl.
  destruct (all_violations self df pt idx) as [|v vs]; [exact H|].
  destruct (drop df (v :: vs)) as [d|e]; [|discriminate].
  cbn [bind] in *.
  destruct (existsb (fun q => strike q =? atm) (rows (reset_index d)));
    [|discriminate].
  destruct (anchor_index (reset_index d) atm) as [i|e]; [|discriminate].
  cbn [bind] in *. apply IH; trivial. lia.
Qed.

(** X5. A run that ended in "Clean" does not depend on the cap: with any
    larger [max_iter] the same table is returned, through "Clean". *)
Theorem converged_result_independent_of_cap :
  forall self df pt atm max_iter out,
    clean_trace self df pt atm max_iter = Ok (out, CLEAN) ->
    forall max_iter', (max_iter <= max_iter')%nat ->
      clean_trace self df pt atm max_iter' = Ok (out, CLEAN)
      /\ clean_single_dataframe self df pt atm max_iter' = Ok out.
Proof.
  intros self df pt atm max_iter out H max_iter' L.
  assert (T : clean_trace self df pt atm max_iter' = Ok (out, CLEAN)).
  { unfold clean_trace in *.
    destruct (anchor_index df atm) as [idx|e]; [|discriminate].
    cbn [bind] in *. now apply (clean_loop_more_fuel self pt atm max_iter). }
  split; [exact T|]. unfold clean_single_dataframe. now rewrite T.
Qed.

Lemma converged_result_independent_of_cap_witness :
  clean_trace cleaner_100 scenario_A call 100 50
  = Ok (scenario_A_cleaned,
        CLEAN)
  /\ clean_single_dataframe cleaner_100 scenario_A call 100 50
     = Ok scenario_A_cleaned.
Proof.
  apply (converged_result_independent_of_cap cleaner_100 scenario_A call 100
           2); [reflexivity | lia].
Defined.

(** ** Positions returned by the sorted-view checkers *)

Lemma length_insert_row x l : length (insert_row x l) = S (length l).
Proof.
  induction l as [|y l IH]; simpl; [reflexivity|].
  destruct (strike (snd y) <? strike (snd x)); simpl; [now rewrite IH | reflexivity].
Qed.

Lemma length_isort l : length (isort l) = length l.
Proof.
  induction l as [|x l IH]; simpl; [reflexivity|].
  now rewrite length_insert_row, IH.
Qed.

(** Sorting keeps every row. *)
Lemma length_df_sorted df : length (df_sorted df) = length df.
Proof.
  unfold df_sorted, sort_values. rewrite length_rows, length_app, length_isort.
  rewrite Nat.add_comm.
  apply (filter_length (fun r => is_nan (strike (snd r))) df).
Qed.

Lemma check_vertical_range df pt p :
  In p (_check_vertical_no_arb df pt) ->
  (1 <= p < Z.of_nat (length df))%Z.
Proof.
  unfold _check_vertical_no_arb. rewrite length_df_sorted. intros H.
  apply nodup_In in H. apply in_app_or in H.
  destruct H as [H|H]; apply in_flat_map in H; destruct H as (i & Hi & H);
    apply in_seq in Hi.
  - destruct (nth_error (df_sorted df) i); [|contradiction].
    destruct (nth_error (df_sorted df) (i + 1)); [|contradiction].
    destruct (mono_violation pt q q0); [|contradiction].
    destruct H as [<-|[]]. lia.
  - destruct (nth_error (df_sorted df) (i - 1)); [|contradiction].
    destruct (nth_error (df_sorted df) i); [|contradiction].
    destruct (nth_error (df_sorted df) (i + 1)); [|contradiction].
    destruct (convex_violation pt q q0 q1); [|contradiction].
    destruct H as [<-|[]]. lia.
Qed.

Lemma check_butterfly_range df pt p :
  In p (_check_butterfly_no_arb df pt) ->
  (1 <= p < Z.of_nat (length df) - 1)%Z.
Proof.
  unfold _check_butterfly_no_arb. rewrite length_df_sorted. intros H.
  apply in_flat_map in H. destruct H as (i & Hi & H). apply in_seq in Hi.
  destruct (nth_error (df_sorted df) (i - 1)); [|contradiction].
  destruct (nth_error (df_sorted df) i); [|contradiction].
  destruct (nth_error (df_sorted df) (i + 1)); [|contradiction].
  destruct (0.01 <? spacing_ratio q q0 q1); [contradiction|].
  destruct pt; destruct (eps <? butterfly_cost q q0 q1);
    try contradiction; destruct H as [<-|[]]; lia.
Qed.

(** X6. Whatever the row order and the labels of the table, the vertical
    checker returns positions between 1 and [n-1] and the butterfly checker
    positions between 1 and [n-2] ([n] rows): the lowest strike is never
    flagged by either, the highest never by the butterfly checker; a table
    with fewer than two (three) rows gives an empty vertical (butterfly)
    result. *)
Theorem sorted_view_checkers_range :
  forall df pt,
    (forall p, In p (_check_vertical_no_arb df pt) ->
               (1 <= p <= Z.of_nat (length df) - 1)%Z)
    /\ (forall p, In p (_check_butterfly_no_arb df pt) ->
                  (1 <= p <= Z.of_nat (length df) - 2)%Z)
    /\ ((length df < 2)%nat -> _check_vertical_no_arb df pt = [])
    /\ ((length df < 3)%nat -> _check_butterfly_no_arb df pt = []).
Proof.
  intros df pt.
  assert (V : forall p, In p (_check_vertical_no_arb df pt) ->
                        (1 <= p <= Z.of_nat (length df) - 1)%Z).
  { intros p H. apply check_vertical_range in H. lia. }
  assert (B : forall p, In p (_check_butterfly_no_arb df pt) ->
                        (1 <= p <= Z.of_nat (length df) - 2)%Z).
  { intros p H. apply check_butterfly_range in H. lia. }
  repeat split; try (now apply V); try (now apply B).
  - intros L. destruct (_check_vertical_no_arb df pt) as [|p ps] eqn:E;
      [reflexivity|].
    specialize (V p (or_introl eq_refl)). lia.
  - intros L. destruct (_check_butterfly_no_arb df pt) as [|p ps] eqn:E;
      [reflexivity|].
    specialize (B p (or_introl eq_refl)). lia.
Qed.

Lemma sorted_view_checkers_range_witness :
  _check_vertical_no_arb anchor_breaks_monotonicity call <> [] /\
  _check_butterfly_no_arb anchor_breaks_monotonicity call = [].
Proof.
  split; [discriminate|].
  apply (proj2 (proj2 (proj2 (sorted_view_checkers_range
                                anchor_breaks_monotonicity call)))).
  simpl. lia.
Defined.

(** ** Tables with the default index *)

Lemma default_index_labels df l :
  default_index df -> (0 <= l < Z.of_nat (length df))%Z -> In l (labels df).
Proof.
  intros R L.
  assert (N : (Z.to_nat l < length (rows df))%nat)
    by (rewrite length_rows; lia).
  apply nth_error_Some in N.
  destruct (nth_error (rows df) (Z.to_nat l)) as [q|] eqn:E; [|congruence].
  pose proof (relabel_In (rows df) 0%Z _ q E) as I.
  fold (reset_index df) in I. rewrite R in I.
  unfold labels. apply in_map_iff. exists (0 + Z.of_nat (Z.to_nat l), q)%Z.
  split; [simpl; lia | exact I].
Qed.

Lemma check_bounds_labels self df pt l :
  In l (_check_bounds self df pt) -> In l (labels df).
Proof.
  rewrite check_bounds_filter. unfold labels. rewrite !in_map_iff.
  intros (r & E & I). apply filter_In in I. exists r. tauto.
Qed.

(** With the default index every flagged label is in the index: the removal
    does not raise. *)
Lemma drop_default_index self df pt idx :
  default_index df ->
  exists d, drop df (all_violations self df pt idx) = Ok d.
Proof.
  intros R. unfold drop.
  assert (F : forallb (fun l => mem l (labels df))
                (all_violations self df pt idx) = true).
  { apply forallb_forall. intros l I. apply mem_In.
    apply in_all_violations in I. destruct I as [_ [I|I]].
    - apply default_index_labels; trivial. apply in_app_or in I.
      destruct I as [I|I].
      + apply check_vertical_range in I. lia.
      + apply check_butterfly_range in I. lia.
    - now apply (check_bounds_labels self df pt). }
  rewrite F. eauto.
Qed.

Lemma clean_loop_returns self pt atm :
  forall fuel df idx,
    default_index df ->
    (exists q, anchor_row df atm = Some (idx, q)) ->
    exists out st, clean_loop self pt atm fuel df idx = Ok (out, st).
Proof.
  induction fuel as [|fuel IH]; intros df idx R [q A]; simpl; [eauto|].
  destruct (all_violations self df pt idx) as [|v vs] eqn:V; [eauto|].
  destruct (drop_default_index self df pt idx R) as [d D].
  rewrite V in D. rewrite D. cbn [bind]. rewrite <- V in D.
  destruct (anchor_survives_removal self pt atm df idx q d A D)
    as (idx' & A' & X & P).
  unfold strike_present in P. rewrite P, X. cbn [bind].
  apply IH; [apply reset_index_idem | eauto].
Qed.

(** X7. On a table with the default index in which the anchor strike occurs,
    [clean_single_dataframe] raises nothing: it returns a table, for every
    side, pricing context and [max_iter]. *)
Theorem clean_returns_on_default_index :
  forall self df pt atm max_iter,
    default_index df ->
    strike_present df atm = true ->
    exists out st,
      clean_trace self df pt atm max_iter = Ok (out, st)
      /\ clean_single_dataframe self df pt atm max_iter = Ok out.
Proof.
  intros self df pt atm max_iter R P.
  apply strike_present_find in P. destruct P as (idx & q & A).
  unfold clean_single_dataframe, clean_trace.
  rewrite anchor_index_find, A. cbn [bind].
  destruct (clean_loop_returns self pt atm max_iter df idx R) as (out & st & H);
    [eauto|].
  exists out, st. rewrite H. split; reflexivity.
Qed.

Lemma clean_returns_on_default_index_witness :
  exists out st,
    clean_trace cleaner_100 unsorted_calls call 100 20 = Ok (out, st)
    /\ clean_single_dataframe cleaner_100 unsorted_calls call 100 20 = Ok out.
Proof.
  apply (clean_returns_on_default_index cleaner_100 unsorted_calls call 100 20);
    reflexivity.
Defined.

(** ** Post-conditions of a run left through "Clean" *)

(** X8. In a table returned through "Clean", every quote whose label is not
    the anchor's is within the model-free bounds of its side; this holds for
    every input table, sorted or not. *)
Theorem clean_table_within_bounds :
  forall self df pt atm max_iter out,
    clean_trace self df pt atm max_iter = Ok (out, CLEAN) ->
    exists idx,
      anchor_index out atm = Ok idx
      /\ forall l q, In (l, q) out -> l <> idx ->
           ~ spec_bounds_violation self pt q.
Proof.
  intros self df pt atm max_iter out H. unfold clean_trace in H.
  destruct (anchor_index df atm) as [i0|e] eqn:X; [|discriminate].
  cbn [bind] in H. apply anchor_index_row in X.
  destruct (clean_loop_invariant self pt atm (fun _ _ => True))
    with (fuel := max_iter) (df := df) (idx := i0) (out := out) (st := CLEAN)
    as (_ & idx & _ & X' & V); trivial.
  specialize (V eq_refl). exists idx. split; [exact X'|].
  intros l q I N S. apply bounds_violation_spec in S.
  assert (M : In l (all_violations self out pt idx)).
  { apply in_all_violations. split; trivial. right.
    rewrite check_bounds_filter. unfold labels. apply in_map_iff.
    exists (l, q). split; trivial. apply filter_In. now split. }
  rewrite V in M. contradiction.
Qed.

Lemma clean_table_within_bounds_witness :
  exists idx,
    anchor_index scenario_A_cleaned 100 = Ok idx
    /\ forall l q, In (l, q) scenario_A_cleaned -> l <> idx ->
         ~ spec_bounds_violation cleaner_100 call q.
Proof.
  apply (clean_table_within_bounds cleaner_100 scenario_A call 100 20).
  reflexivity.
Defined.

(** The state in which a run on a sorted, default-indexed table is left
    through "Clean". *)
Lemma clean_canonical_exit self df pt atm max_iter out :
  canonical df ->
  clean_trace self df pt atm max_iter = Ok (out, CLEAN) ->
  canonical out
  /\ exists idx,
       anchor_index out atm = Ok idx
       /\ all_violations self out pt idx = [].
Proof.
  intros C H. unfold clean_trace in H.
  destruct (anchor_index df atm) as [i0|e] eqn:X; [|discriminate].
  cbn [bind] in H. apply anchor_index_row in X.
  destruct (clean_loop_invariant self pt atm (fun d _ => canonical d))
    with (fuel := max_iter) (df := df) (idx := i0) (out := out) (st := CLEAN)
    as (_ & idx & C' & X' & V); trivial.
  { intros d0 i1 d i' [_ A0] _ D _. exact (canonical_removal d0 _ d A0 D). }
  split; [exact C'|]. exists idx. split; [exact X' | now apply V].
Qed.

(** In that state a position flagged by a sorted-view checker holds the
    anchor strike. *)
Lemma canonical_flag_is_anchor self out pt atm idx i q :
  canonical out ->
  anchor_index out atm = Ok idx ->
  all_violations self out pt idx = [] ->
  In (Z.of_nat i)
     (_check_vertical_no_arb out pt ++ _check_butterfly_no_arb out pt) ->
  nth_error (rows out) i = Some q ->
  (strike q =? atm) = true.
Proof.
  intros [R A] X V F N.
  destruct (Z.eq_dec (Z.of_nat i) idx) as [E|NE].
  - apply anchor_index_row in X. destruct X as [q' Q].
    pose proof (find_some _ _ Q) as [I S]. simpl in S.
    rewrite <- R in I. unfold reset_index in I. apply relabel_nth in I.
    destruct I as [_ N']. rewrite <- E, Z.sub_0_r, Nat2Z.id in N'.
    congruence.
  - assert (M : In (Z.of_nat i) (all_violations self out pt idx))
      by (apply in_all_violations; auto).
    rewrite V in M. contradiction.
Qed.

Lemma check_vertical_flags_middle df pt i q1 q2 q3 :
  ascending df ->
  nth_error (rows df) i = Some q1 ->
  nth_error (rows df) (S i) = Some q2 ->
  nth_error (rows df) (S (S i)) = Some q3 ->
  convex_violation pt q1 q2 q3 = true ->
  In (Z.of_nat (S i)) (_check_vertical_no_arb df pt).
Proof.
  intros A E1 E2 E3 V. unfold _check_vertical_no_arb, df_sorted.
  rewrite (sort_values_ascending df A).
  apply nodup_In. apply in_or_app. right. apply in_flat_map.
  exists (S i). split.
  - apply in_seq.
    assert (L : (S (S i) < length (rows df))%nat)
      by (apply nth_error_Some; congruence).
    lia.
  - replace (S i - 1)%nat with i by lia.
    replace (S i + 1)%nat with (S (S i)) by lia.
    rewrite E1, E2, E3, V. now left.
Qed.

Lemma check_butterfly_flags_middle df pt i q1 q2 q3 :
  ascending df ->
  nth_error (rows df) i = Some q1 ->
  nth_error (rows df) (S i) = Some q2 ->
  nth_error (rows df) (S (S i)) = Some q3 ->
  (0.01 <? spacing_ratio q1 q2 q3) = false ->
  (eps <? butterfly_cost q1 q2 q3) = true ->
  In (Z.of_nat (S i)) (_check_butterfly_no_arb df pt).
Proof.
  intros A E1 E2 E3 R C. unfold _check_butterfly_no_arb, df_sorted.
  rewrite (sort_values_ascending df A). apply in_flat_map.
  exists (S i). split.
  - apply in_seq.
    assert (L : (S (S i) < length (rows df))%nat)
      by (apply nth_error_Some; congruence).
    lia.
  - replace (S i - 1)%nat with i by lia.
    replace (S i + 1)%nat with (S (S i)) by lia.
    rewrite E1, E2, E3, R. destruct pt; rewrite C; now left.
Qed.

(** X9. For a table given with the default index and ascending strikes,
    when the run ends in "Clean", no three consecutive strikes of the
    returned table whose middle one is not the anchor strike fail the
    convexity test of the side ([slope1 > slope2 + 1e-10] is false). *)
Theorem clean_table_convex_off_anchor :
  forall self df pt atm max_iter out,
    canonical df ->
    clean_trace self df pt atm max_iter = Ok (out, CLEAN) ->
    forall i q1 q2 q3,
      nth_error (rows out) i = Some q1 ->
      nth_error (rows out) (S i) = Some q2 ->
      nth_error (rows out) (S (S i)) = Some q3 ->
      (strike q2 =? atm) = false ->
      convex_violation pt q1 q2 q3 = false.
Proof.
  intros self df pt atm max_iter out C H i q1 q2 q3 E1 E2 E3 NA.
  destruct (clean_canonical_exit self df pt atm max_iter out C H)
    as (C' & idx & X & V).
  destruct (convex_violation pt q1 q2 q3) eqn:M; [exfalso | reflexivity].
  assert (F : In (Z.of_nat (S i)) (_check_vertical_no_arb out pt)).
  { destruct C' as [_ A].
    exact (check_vertical_flags_middle out pt i q1 q2 q3 A E1 E2 E3 M). }
  assert (T : (strike q2 =? atm) = true).
  { apply (canonical_flag_is_anchor self out pt atm idx (S i) q2); trivial.
    apply in_or_app. now left. }
  congruence.
Qed.

Lemma clean_table_convex_off_anchor_witness :
  convex_violation call (mkQuote 100 5 5.2) (mkQuote 105 2.8 10)
    (mkQuote 110 1 1.3) = false.
Proof.
  apply (clean_table_convex_off_anchor cleaner_100 scenario_A call 100 20
           scenario_A_cleaned) with (i := 1%nat).
  - split; [reflexivity | repeat constructor].
  - reflexivity.
  - reflexivity.
  - reflexivity.
  - reflexivity.
  - reflexivity.
Defined.

(** X10. Under the same conditions, every three consecutive strikes of the
    returned table whose middle one is not the anchor strike are either
    skipped by the butterfly checker (spacing ratio above 0.01) or have a
    butterfly cost [bid - 2 ask + bid] that does not exceed [1e-10]. *)
Theorem clean_table_butterfly_off_anchor :
  forall self df pt atm max_iter out,
    canonical df ->
    clean_trace self df pt atm max_iter = Ok (out, CLEAN) ->
    forall i q1 q2 q3,
      nth_error (rows out) i = Some q1 ->
      nth_error (rows out) (S i) = Some q2 ->
      nth_error (rows out) (S (S i)) = Some q3 ->
      (strike q2 =? atm) = false ->
      (0.01 <? spacing_ratio q1 q2 q3) = true
      \/ (1e-10 <? bid q1 - 2 * ask q2 + bid q3) = false.
Proof.
  intros self df pt atm max_iter out C H i q1 q2 q3 E1 E2 E3 NA.
  destruct (clean_canonical_exit self df pt atm max_iter out C H)
    as (C' & idx & X & V).
  destruct (0.01 <? spacing_ratio q1 q2 q3) eqn:R; [now left | right].
  fold (butterfly_cost q1 q2 q3). fold eps.
  destruct (eps <? butterfly_cost q1 q2 q3) eqn:M; [exfalso | reflexivity].
  assert (F : In (Z.of_nat (S i)) (_check_butterfly_no_arb out pt)).
  { destruct C' as [_ A].
    exact (check_butterfly_flags_middle out pt i q1 q2 q3 A E1 E2 E3 R M). }
  assert (T : (strike q2 =? atm) = true).
  { apply (canonical_flag_is_anchor self out pt atm idx (S i) q2); trivial.
    apply in_or_app. now right. }
  congruence.
Qed.

Lemma clean_table_butterfly_off_anchor_witness :
  (0.01 <? spacing_ratio (mkQuote 100 5 5.2) (mkQuote 105 2.8 10)
             (mkQuote 110 1 1.3)) = true
  \/ (1e-10 <? bid (mkQuote 100 5 5.2) - 2 * ask (mkQuote 105 2.8 10)
               + bid (mkQuote 110 1 1.3)) = false.
Proof.
  apply (clean_table_butterfly_off_anchor cleaner_100 scenario_A call 100 20
           scenario_A_cleaned) with (i := 1%nat).
  - split; [reflexivity | repeat constructor].
  - reflexivity.
  - reflexivity.
  - reflexivity.
  - reflexivity.
  - reflexivity.
Defined.

(** ** A table of one quote *)

Lemma number_eqb_refl x : is_nan x = false -> (x =? x) = true.
Proof. unfold is_nan. intros H. now apply negb_false_iff in H. Qed.

(** X11. A table of a single quote whose strike is a number: the selector
    returns that strike and the cleaner returns the table as it is, through
    "Clean", whatever its bid, ask and label, even out of bounds (the only
    quote is the anchor). *)
Theorem single_quote_table_unchanged :
  forall self l q pt max_iter,
    is_nan (strike q) = false ->
    identify_atm_strike self [(l, q)] = Ok (strike q)
    /\ clean_trace self [(l, q)] pt (strike q) (S max_iter)
       = Ok ([(l, q)], CLEAN)
    /\ clean_single_dataframe self [(l, q)] pt (strike q) max_iter
       = Ok [(l, q)].
Proof.
  intros self l q pt max_iter N.
  pose proof (number_eqb_refl _ N) as E.
  assert (V : all_violations self [(l, q)] pt l = []).
  { unfold all_violations.
    assert (Ve : _check_vertical_no_arb [(l, q)] pt = []).
    { destruct (_check_vertical_no_arb [(l, q)] pt) as [|p ps] eqn:Ev;
        [reflexivity|].
      pose proof (check_vertical_range [(l, q)] pt p) as B.
      rewrite Ev in B. specialize (B (or_introl eq_refl)). simpl in B. lia. }
    assert (Be : _check_butterfly_no_arb [(l, q)] pt = []).
    { destruct (_check_butterfly_no_arb [(l, q)] pt) as [|p ps] eqn:Eb;
        [reflexivity|].
      pose proof (check_butterfly_range [(l, q)] pt p) as B.
      rewrite Eb in B. specialize (B (or_introl eq_refl)). simpl in B. lia. }
    rewrite Ve, Be. simpl.
    destruct (bounds_violation self pt q); simpl; [|reflexivity].
    destruct (Z.eq_dec l l); [reflexivity | congruence]. }
  repeat split.
  - unfold identify_atm_strike. simpl.
    destruct (is_nan (abs (strike q - (Sb self + Sa self) / 2))); reflexivity.
  - unfold clean_trace, anchor_index. simpl. rewrite E. cbn [bind].
    simpl. now rewrite V.
  - unfold clean_single_dataframe, clean_trace, anchor_index. simpl.
    rewrite E. cbn [bind]. destruct max_iter; simpl; [reflexivity|].
    now rewrite V.
Qed.

Lemma single_quote_table_unchanged_witness :
  identify_atm_strike cleaner_100 [(7%Z, mkQuote 100 5 1000)] = Ok 100
  /\ clean_trace cleaner_100 [(7%Z, mkQuote 100 5 1000)] call 100 20
     = Ok ([(7%Z, mkQuote 100 5 1000)], CLEAN)
  /\ clean_single_dataframe cleaner_100 [(7%Z, mkQuote 100 5 1000)] call 100 19
     = Ok [(7%Z, mkQuote 100 5 1000)].
Proof.
  apply (single_quote_table_unchanged cleaner_100 7%Z (mkQuote 100 5 1000)
           call 19).
  reflexivity.
Defined.

(** ** The batch *)

Lemma nth_error_combine {A B} (l : list A) (l' : list B) :
  forall i a b,
    nth_error (combine l l') i = Some (a, b) <->
    nth_error l i = Some a /\ nth_error l' i = Some b.
Proof.
  revert l'. induction l as [|x l IH]; intros [|y l'] [|i] a b; simpl;
    try (split; [discriminate | intros [? ?]; discriminate]).
  - split; [intros E; injection E as <- <-; now split|].
    intros [E1 E2]. injection E1 as <-. injection E2 as <-. reflexivity.
  - apply IH.
Qed.

Lemma batch_loop_prefix cleaner pairs :
  forall acc counts cl cn,
    batch_loop cleaner pairs acc counts = Ok (cl, cn) ->
    exists cl' cn', cl = acc ++ cl' /\ cn = counts ++ cn'.
Proof.
  induction pairs as [|[df o_type] pairs IH]; intros acc counts cl cn H;
    simpl in H.
  - injection H as <- <-. exists [], []. now rewrite !app_nil_r.
  - destruct (identify_atm_strike cleaner df) as [atm|e]; [|discriminate].
    cbn [bind] in H.
    destruct (clean_single_dataframe cleaner df o_type atm 20) as [c|e];
      [|discriminate].
    cbn [bind] in H. apply IH in H. destruct H as (cl' & cn' & -> & ->).
    exists (c :: cl'), ((Z.of_nat (length df) - Z.of_nat (length c))%Z :: cn').
    now rewrite <- !app_assoc.
Qed.

Lemma batch_loop_nth cleaner pairs :
  forall acc counts cl cn,
    batch_loop cleaner pairs acc counts = Ok (cl, cn) ->
    length acc = length counts ->
    forall i df ty, nth_error pairs i = Some (df, ty) ->
      exists atm c,
        identify_atm_strike cleaner df = Ok atm
        /\ clean_single_dataframe cleaner df ty atm 20 = Ok c
        /\ nth_error cl (length acc + i) = Some c
        /\ nth_error cn (length acc + i)
           = Some (Z.of_nat (length df) - Z.of_nat (length c))%Z.
Proof.
  induction pairs as [|[df0 ty0] pairs IH];
    intros acc counts cl cn H L i df ty N.
  - destruct i; discriminate.
  - simpl in H.
    destruct (identify_atm_strike cleaner df0) as [atm|e] eqn:I;
      [|discriminate].
    cbn [bind] in H.
    destruct (clean_single_dataframe cleaner df0 ty0 atm 20) as [c|e] eqn:C;
      [|discriminate].
    cbn [bind] in H. destruct i as [|i]; simpl in N.
    + injection N as -> ->. exists atm, c. repeat split; trivial.
      * apply batch_loop_prefix in H. destruct H as (cl' & cn' & -> & _).
        rewrite Nat.add_0_r, <- app_assoc, nth_error_app2 by lia.
        now rewrite Nat.sub_diag.
      * apply batch_loop_prefix in H. destruct H as (cl' & cn' & _ & ->).
        rewrite Nat.add_0_r, L, <- app_assoc, nth_error_app2 by lia.
        now rewrite Nat.sub_diag.
    + destruct (IH _ _ _ _ H) with (i := i) (df := df) (ty := ty)
        as (atm' & c' & I' & C' & N1 & N2); trivial.
      * rewrite !length_app. simpl. lia.
      * exists atm', c'. rewrite length_app in N1, N2. simpl in N1, N2.
        replace (length acc + S i)%nat with (length acc + 1 + i)%nat by lia.
        now repeat split.
Qed.

(** The cleaner returns at least the anchor row and at most its input. *)
Lemma clean_single_length self df pt atm max_iter out :
  clean_single_dataframe self df pt atm max_iter = Ok out ->
  (1 <= length out <= length df)%nat.
Proof.
  unfold clean_single_dataframe. intros H.
  destruct (clean_trace self df pt atm max_iter) as [[o st]|e] eqn:T;
    [|discriminate].
  cbn [bind] in H. injection H as <-. simpl. split.
  - destruct (clean_trace_keeps_anchor self df pt atm max_iter o st T)
      as (_ & idx & idx' & q & _ & A).
    apply find_some in A. destruct A as [I _].
    destruct o; [contradiction | simpl; lia].
  - rewrite <- !length_rows. apply subseq_length.
    exact (clean_trace_subseq self df pt atm max_iter o st T).
Qed.

(** X12. When the batch returns, its [i]-th cleaned table is what
    [clean_single_dataframe] returns on the [i]-th table with the [i]-th side,
    the anchor that [identify_atm_strike] selects on that table and 20
    iterations; the [i]-th removed count is the difference of the two
    lengths, at least 0 and at most the input length minus one; and
    [arbitrage_types_found] is empty. *)
Theorem batch_results_per_table :
  forall np_exp dfs tys spot_bid spot_ask r T cleaned report,
    clean_all_dataframes np_exp dfs tys spot_bid spot_ask r T
    = Ok (cleaned, report) ->
    arbitrage_types_found report = []
    /\ forall i df ty,
         nth_error dfs i = Some df -> nth_error tys i = Some ty ->
         exists atm c,
           identify_atm_strike (init np_exp spot_bid spot_ask r T 0) df
           = Ok atm
           /\ clean_single_dataframe (init np_exp spot_bid spot_ask r T 0)
                df ty atm 20 = Ok c
           /\ nth_error cleaned i = Some c
           /\ nth_error (removed_counts report) i
              = Some (Z.of_nat (length df) - Z.of_nat (length c))%Z
           /\ (0 <= Z.of_nat (length df) - Z.of_nat (length c)
               <= Z.of_nat (length df) - 1)%Z.
Proof.
  intros np_exp dfs tys sb sa r T cleaned report H.
  unfold clean_all_dataframes in H.
  destruct (batch_loop (init np_exp sb sa r T 0) (combine dfs tys) [] [])
    as [[cl cn]|e] eqn:E; [|discriminate].
  cbn [bind] in H. injection H as <- <-. simpl. split; [reflexivity|].
  intros i df ty Nd Nt.
  destruct (batch_loop_nth _ _ _ _ _ _ E eq_refl i df ty)
    as (atm & c & I & C & N1 & N2).
  { apply nth_error_combine. now split. }
  exists atm, c. simpl in N1, N2. repeat split; trivial;
    apply clean_single_length in C; lia.
Qed.

Lemma batch_results_per_table_witness :
  arbitrage_types_found (mkReport [0%Z; 1%Z] []) = []
  /\ forall i df ty,
       nth_error [calls_3; scenario_A] i = Some df ->
       nth_error [call; call] i = Some ty ->
       exists atm c,
         identify_atm_strike (init exp_at_zero 100 100 0 1 0) df = Ok atm
         /\ clean_single_dataframe (init exp_at_zero 100 100 0 1 0)
              df ty atm 20 = Ok c
         /\ nth_error [calls_3; scenario_A_cleaned] i = Some c
         /\ nth_error (removed_counts (mkReport [0%Z; 1%Z] [])) i
            = Some (Z.of_nat (length df) - Z.of_nat (length c))%Z
         /\ (0 <= Z.of_nat (length df) - Z.of_nat (length c)
             <= Z.of_nat (length df) - 1)%Z.
Proof.
  apply (batch_results_per_table exp_at_zero [calls_3; scenario_A]
           [call; call] 100 100 0 1).
  reflexivity.
Defined.

(** X13. An empty table among the processed pairs makes the whole batch
    raise: nothing is returned, not even the tables cleaned before it. *)
Theorem batch_raises_on_empty_table :
  forall np_exp (dfs : list DataFrame) tys spot_bid spot_ask r T i ty,
    nth_error dfs i = Some [] ->
    nth_error tys i = Some ty ->
    exists e,
      clean_all_dataframes np_exp dfs tys spot_bid spot_ask r T = Raise e.
Proof.
  intros np_exp dfs tys sb sa r T i ty Nd Nt.
  unfold clean_all_dataframes.
  destruct (batch_loop (init np_exp sb sa r T 0) (combine dfs tys) [] [])
    as [[cl cn]|e] eqn:E; [exfalso | cbn [bind]; eauto].
  destruct (batch_loop_nth _ _ _ _ _ _ E eq_refl i [] ty)
    as (atm & c & I & _).
  { apply nth_error_combine. now split. }
  unfold identify_atm_strike in I. simpl in I. discriminate.
Qed.

Lemma batch_raises_on_empty_table_witness :
  exists e,
    clean_all_dataframes exp_at_zero [calls_3; []] [call; put] 100 100 0 1
    = Raise e.
Proof.
  apply (batch_raises_on_empty_table exp_at_zero [calls_3; []] [call; put]
           100 100 0 1 1 put); reflexivity.
Defined.

Lemma identify_returns_member self df :
  df <> [] ->
  exists q, In q (rows df) /\ identify_atm_strike self df = Ok (strike q).
Proof.
  intros NE. unfold identify_atm_strike.
  destruct (np_argmin (map (fun k => abs (k - (Sb self + Sa self) / 2))
                         (map strike (rows df)))) as [i|e] eqn:A.
  - cbn [bind]. apply np_argmin_bound in A. rewrite !length_map in A.
    assert (N : nth_error (rows df) i <> None)
      by (apply nth_error_Some; exact A).
    destruct (nth_error (rows df) i) as [q|] eqn:Q; [|congruence].
    exists q. split; [eapply nth_error_In; eauto|].
    now rewrite nth_error_map, Q.
  - destruct df as [|r df]; [congruence|]. simpl in A.
    destruct (is_nan _); discriminate.
Qed.

Lemma clean_single_returns self df pt atm max_iter :
  default_index df ->
  strike_present df atm = true ->
  exists out, clean_single_dataframe self df pt atm max_iter = Ok out.
Proof.
  intros R P. apply strike_present_find in P. destruct P as (idx & q & A).
  unfold clean_single_dataframe, clean_trace.
  rewrite anchor_index_find, A. cbn [bind].
  destruct (clean_loop_returns self pt atm max_iter df idx R) as (out & st & H);
    [eauto|].
  exists out. now rewrite H.
Qed.

Lemma batch_loop_returns cleaner pairs :
  Forall (fun p => fst p <> [] /\ default_index (fst p)
                   /\ numeric_strikes (fst p)) pairs ->
  forall acc counts,
    exists cl cn, batch_loop cleaner pairs acc counts = Ok (cl, cn).
Proof.
  induction 1 as [|[df ty] pairs (NE & R & N) _ IH]; intros acc counts;
    simpl; [eauto|].
  simpl in NE, R, N.
  destruct (identify_returns_member cleaner df NE) as (q & I & ->).
  cbn [bind].
  assert (P : strike_present df (strike q) = true).
  { unfold strike_present. apply existsb_exists. exists q. split; trivial.
    apply number_eqb_refl. unfold numeric_strikes in N.
    rewrite Forall_forall in N. now apply N. }
  destruct (clean_single_returns cleaner df ty (strike q) 20 R P) as [out ->].
  cbn [bind]. apply IH.
Qed.

(** X14. When every table is non-empty, has the default index and has
    numbers for strikes, the batch raises nothing: it returns as many
    cleaned tables and counts as there are pairs. *)
Theorem batch_returns_on_well_formed_tables :
  forall np_exp (dfs : list DataFrame) tys spot_bid spot_ask r T,
    Forall (fun df : DataFrame =>
              df <> [] /\ default_index df /\ numeric_strikes df) dfs ->
    exists cleaned report,
      clean_all_dataframes np_exp dfs tys spot_bid spot_ask r T
      = Ok (cleaned, report)
      /\ length cleaned = Nat.min (length dfs) (length tys)
      /\ length (removed_counts report) = Nat.min (length dfs) (length tys).
Proof.
  intros np_exp dfs tys sb sa r T F. unfold clean_all_dataframes.
  destruct (batch_loop_returns (init np_exp sb sa r T 0) (combine dfs tys))
    with (acc := @nil DataFrame) (counts := @nil Z) as (cl & cn & E).
  { apply Forall_forall. intros [df ty] I. apply in_combine_l in I.
    rewrite Forall_forall in F. exact (F df I). }
  rewrite E. cbn [bind]. exists cl, (mkReport cn []). split; [reflexivity|].
  apply batch_loop_length in E. rewrite length_combine in E. exact E.
Qed.

Lemma batch_returns_on_well_formed_tables_witness :
  exists cleaned report,
    clean_all_dataframes exp_at_zero [unsorted_calls; cascade] [call; call]
      100 100 0 1 = Ok (cleaned, report)
    /\ length cleaned = Nat.min 2 2
    /\ length (removed_counts report) = Nat.min 2 2.
Proof.
  apply (batch_returns_on_well_formed_tables exp_at_zero
           [unsorted_calls; cascade] [call; call] 100 100 0 1).
  repeat constructor; discriminate.
Defined.

(** ** The anchor of the cleaned table *)

Module FloatEquality.
Import FloatRank.

Lemma eqb_key x y :
  (x =? y)%float = true <-> exists a, key x = Some a /\ key y = Some a.
Proof.
  rewrite FloatAxioms.eqb_spec. unfold SFeqb, key.
  rewrite FloatOrder.SFcompare_rank.
  destruct (rank (Prim2SF x)) as [a|], (rank (Prim2SF y)) as [b|];
    try (split; [discriminate | intros (c & ? & ?); discriminate]).
  split.
  - intros H. destruct (cmp3 a b) eqn:E; try discriminate.
    apply FloatOrder.cmp3_Eq in E. subst b. eauto.
  - intros (c & Ha & Hb). injection Ha as ->. injection Hb as ->.
    assert (E : cmp3 c c = Eq) by now apply FloatOrder.cmp3_Eq.
    now rewrite E.
Qed.

Lemma eqb_sym x y : (x =? y)%float = true -> (y =? x)%float = true.
Proof.
  intros H. apply eqb_key in H. apply eqb_key.
  destruct H as (a & Hx & Hy). eauto.
Qed.

Lemma eqb_number x y : (x =? y)%float = true -> is_nan y = false.
Proof.
  intros H. apply eqb_key in H. destruct H as (a & _ & Hy).
  apply FloatOrder.number_key. eauto.
Qed.

Lemma ltb_not_eqb x y : (x <? y)%float = true -> (x =? y)%float = false.
Proof.
  intros L. destruct (x =? y)%float eqn:E; [exfalso | reflexivity].
  apply FloatOrder.ltb_key in L. apply eqb_key in E.
  destruct L as (a & b & Ha & Hb & L), E as (c & Hx & Hy).
  rewrite Ha in Hx. rewrite Hb in Hy. injection Hx as ->. injection Hy as ->.
  exact (FloatOrder.lt3_irrefl c L).
Qed.

End FloatEquality.

(** The strikes of a table sorted by strike are distinct. *)
Lemma ascending_distinct_strikes df : ascending df -> distinct_strikes df.
Proof.
  intros A i j qi qj Hi Hj E.
  unfold rows in Hi, Hj. rewrite nth_error_map in Hi, Hj.
  destruct (nth_error df i) as [a|] eqn:Ea; [|discriminate].
  destruct (nth_error df j) as [b|] eqn:Eb; [|discriminate].
  simpl in Hi, Hj. injection Hi as <-. injection Hj as <-.
  destruct (Nat.lt_trichotomy i j) as [L|[L|L]]; trivial; exfalso.
  - pose proof (ascending_nth_lt df A i j a b L Ea Eb) as T.
    apply FloatEquality.ltb_not_eqb in T. congruence.
  - pose proof (ascending_nth_lt df A j i b a L Eb Ea) as T.
    apply FloatEquality.ltb_not_eqb in T. apply FloatEquality.eqb_sym in E.
    congruence.
Qed.

Lemma subseq_nth {A} (l1 l2 : list A) :
  subseq l1 l2 ->
  forall s b, nth_error l1 s = Some b -> exists s', nth_error l2 s' = Some b.
Proof.
  intros S s b N. apply nth_error_In in N.
  apply (subseq_In l1 l2 b S) in N. now apply In_nth_error in N.
Qed.

(** Taking elements out of a list keeps the others in their order. *)
Lemma subseq_nth_order {A} (l1 l2 : list A) :
  subseq l1 l2 ->
  forall r s a b, (r < s)%nat ->
    nth_error l1 r = Some a -> nth_error l1 s = Some b ->
    exists r' s', (r' < s')%nat
      /\ nth_error l2 r' = Some a /\ nth_error l2 s' = Some b.
Proof.
  induction 1 as [|x l1 l2 S IH|x l1 l2 S IH]; intros r s a b L Ha Hb.
  - destruct r; discriminate.
  - destruct (IH r s a b L Ha Hb) as (r' & s' & L' & Ha' & Hb').
    exists (Datatypes.S r'), (Datatypes.S s'). repeat split; trivial. lia.
  - destruct s as [|s]; [lia|]. simpl in Hb. destruct r as [|r]; simpl in Ha.
    + destruct (subseq_nth l1 l2 S s b Hb) as [s' Hb'].
      exists 0%nat, (Datatypes.S s'). repeat split; trivial. lia.
    + destruct (IH r s a b) as (r' & s' & L' & Ha' & Hb'); trivial; [lia|].
      exists (Datatypes.S r'), (Datatypes.S s'). repeat split; trivial. lia.
Qed.

(** The row that [identify_atm_strike] selects, on a non-empty table whose
    distances are numbers. *)
Lemma identify_selects_first_minimum self df :
  df <> [] ->
  numeric_distances self df ->
  exists i q,
    identify_atm_strike self df = Ok (strike q)
    /\ nth_error (rows df) i = Some q
    /\ (forall q', In q' (rows df) ->
          (atm_distance self (strike q)
           <=? atm_distance self (strike q')) = true)
    /\ (forall j q', (j < i)%nat -> nth_error (rows df) j = Some q' ->
          (atm_distance self (strike q)
           <? atm_distance self (strike q')) = true).
Proof.
  intros NE N. unfold identify_atm_strike, numeric_distances, atm_distance in *.
  set (d := fun k => abs (k - (Sb self + Sa self) / 2)) in *.
  destruct df as [|r df]; [congruence|].
  assert (N' : Forall (fun y => is_nan y = false)
                 (d (strike (snd r)) :: map d (map strike (rows df)))).
  { change (Forall (fun y => is_nan y = false)
              (map d (map strike (rows (r :: df))))).
    rewrite map_map, Forall_map. exact N. }
  destruct (np_argmin_min _ _ N') as (i & m & A & Hm & Hle & Hlt).
  change (d (strike (snd r)) :: map d (map strike (rows df)))
    with (map d (map strike (rows (r :: df)))) in *.
  rewrite A. cbn [bind]. rewrite map_map in Hm, Hle, Hlt.
  rewrite nth_error_map in Hm.
  destruct (nth_error (rows (r :: df)) i) as [q|] eqn:Q; [|discriminate].
  simpl in Hm. injection Hm as <-.
  exists i, q. rewrite nth_error_map, Q. simpl option_map.
  repeat split; trivial.
  - intros q' Hq'. apply Hle. apply in_map_iff. now exists q'.
  - intros j q' Hj Hq'. apply (Hlt j); trivial.
    rewrite nth_error_map, Hq'. reflexivity.
Qed.

Lemma identify_after_clean self df pt max_iter atm out st :
  distinct_strikes df ->
  numeric_distances self df ->
  identify_atm_strike self df = Ok atm ->
  clean_trace self df pt atm max_iter = Ok (out, st) ->
  identify_atm_strike self out = Ok atm.
Proof.
  intros D N I H.
  assert (NE : df <> []).
  { intros ->. unfold identify_atm_strike in I. simpl in I. discriminate. }
  destruct (identify_selects_first_minimum self df NE N)
    as (i & qi & I' & Qi & Ale & Alt).
  rewrite I in I'. injection I' as ->.
  destruct (clean_trace_keeps_anchor self df pt _ max_iter out st H)
    as (_ & idx & idx' & q & A & A').
  pose proof (clean_trace_subseq self df pt _ max_iter out st H) as S.
  (* the anchor row is the selected row *)
  pose proof (find_some _ _ A) as [In0 E0]. simpl in E0.
  assert (Inq : In q (rows df))
    by (unfold rows; apply in_map_iff; now exists (idx, q)).
  destruct (In_nth_error _ _ Inq) as [i0 Q0].
  assert (i0 = i) by (exact (D i0 i q qi Q0 Qi E0)). subst i0.
  assert (q = qi) by congruence. subst q.
  pose proof (FloatEquality.eqb_number _ _ E0) as Natm.
  (* it is a row of the output *)
  pose proof (find_some _ _ A') as [In1 _].
  assert (Inq' : In qi (rows out))
    by (unfold rows; apply in_map_iff; now exists (idx', qi)).
  destruct (In_nth_error _ _ Inq') as [s Qs].
  assert (NE' : out <> []) by (intros ->; contradiction).
  assert (N' : numeric_distances self out).
  { unfold numeric_distances in *. rewrite Forall_forall in *.
    intros x Hx. apply N. exact (subseq_In _ _ x S Hx). }
  destruct (identify_selects_first_minimum self out NE' N')
    as (r & qr & Ir & Qr & Ble & Blt).
  rewrite Ir. f_equal.
  assert (Nd : forall x, In x (rows df) ->
                 is_nan (atm_distance self (strike x)) = false).
  { unfold numeric_distances in N. rewrite Forall_forall in N. exact N. }
  assert (Inr : In qr (rows df)).
  { apply (subseq_In _ _ qr S). eapply nth_error_In; eauto. }
  destruct (Nat.lt_trichotomy r s) as [L|[L|L]].
  - exfalso.
    destruct (subseq_nth_order _ _ S r s qr qi L Qr Qs)
      as (r' & s' & L' & Qr' & Qs').
    assert (s' = i).
    { apply (D s' i qi qi Qs' Qi). now apply number_eqb_refl. }
    subst s'. pose proof (Alt r' qr L' Qr') as T.
    pose proof (Ble qi Inq') as U.
    rewrite (FloatOrder.leb_negb_ltb _ _ (Nd _ Inr) (Nd _ Inq)), T in U.
    discriminate.
  - subst r. congruence.
  - exfalso. pose proof (Blt s qi L Qs) as T.
    pose proof (Ale qr Inr) as U.
    rewrite (FloatOrder.leb_negb_ltb _ _ (Nd _ Inq) (Nd _ Inr)), T in U.
    discriminate.
Qed.

(** X15. On a table with distinct strikes whose distances to the spot
    midpoint are numbers, the strike that [identify_atm_strike] selects on
    the table returned by the cleaner is the anchor strike selected on the
    input: cleaning does not move the anchor. *)
Theorem anchor_reselected_on_output :
  forall self df pt max_iter atm out st,
    distinct_strikes df ->
    numeric_distances self df ->
    identify_atm_strike self df = Ok atm ->
    clean_trace self df pt atm max_iter = Ok (out, st) ->
    identify_atm_strike self out = Ok atm.
Proof.
  intros self df pt max_iter atm out st D N I H.
  exact (identify_after_clean self df pt max_iter atm out st D N I H).
Qed.

Lemma anchor_reselected_on_output_witness :
  identify_atm_strike cleaner_100 scenario_A_cleaned = Ok 100.
Proof.
  apply (anchor_reselected_on_output cleaner_100 scenario_A call 20 100
           scenario_A_cleaned CLEAN).
  - apply ascending_distinct_strikes. repeat constructor.
  - repeat constructor.
  - reflexivity.
  - reflexivity.
Defined.

(** ** Running the batch on its own output *)

(** A run left through "Clean" returns a fixed point of the cleaner. *)
Lemma clean_exit_fixed_point self df pt atm max_iter out :
  clean_trace self df pt atm max_iter = Ok (out, CLEAN) ->
  forall max_iter', clean_single_dataframe self out pt atm max_iter' = Ok out.
Proof.
  intros H max_iter'. unfold clean_trace in H.
  destruct (anchor_index df atm) as [idx|e] eqn:X; [|discriminate].
  cbn [bind] in H. apply anchor_index_row in X.
  destruct (clean_loop_invariant self pt atm (fun _ _ => True))
    with (fuel := max_iter) (df := df) (idx := idx) (out := out) (st := CLEAN)
    as (_ & idx' & _ & X' & V); trivial.
  specialize (V eq_refl).
  unfold clean_single_dataframe, clean_trace. rewrite X'. cbn [bind].
  destruct max_iter'; simpl; [reflexivity|]. now rewrite V.
Qed.

(** Selecting the anchor and cleaning, on a table of at most 20 quotes,
    gives a table on which the same two steps change nothing. *)
Lemma pipeline_fixed_point self df ty atm c :
  (length df <= 20)%nat ->
  distinct_strikes df ->
  numeric_distances self df ->
  identify_atm_strike self df = Ok atm ->
  clean_single_dataframe self df ty atm 20 = Ok c ->
  identify_atm_strike self c = Ok atm
  /\ clean_single_dataframe self c ty atm 20 = Ok c.
Proof.
  intros L D N I C. unfold clean_single_dataframe in C.
  destruct (clean_trace self df ty atm 20) as [[o st]|e] eqn:T;
    [|discriminate].
  cbn [bind] in C. injection C as <-. simpl.
  pose proof (short_table_exit self df ty atm 20 o st L T) as ->.
  split.
  - exact (identify_after_clean self df ty 20 atm o CLEAN D N I T).
  - exact (clean_exit_fixed_point self df ty atm 20 o T 20%nat).
Qed.

Lemma batch_loop_fixed cleaner pairs :
  Forall (fun p => exists atm,
            identify_atm_strike cleaner (fst p) = Ok atm
            /\ clean_single_dataframe cleaner (fst p) (snd p) atm 20
               = Ok (fst p)) pairs ->
  forall acc counts,
    batch_loop cleaner pairs acc counts
    = Ok (acc ++ map fst pairs, counts ++ map (fun _ => 0%Z) pairs).
Proof.
  induction 1 as [|[c ty] pairs (atm & I & C) _ IH]; intros acc counts; simpl.
  - now rewrite !app_nil_r.
  - simpl in I, C. rewrite I. cbn [bind]. rewrite C. cbn [bind].
    rewrite IH, <- !app_assoc. simpl. now rewrite Z.sub_diag.
Qed.

Lemma map_fst_combine {A B} (l : list A) (l' : list B) :
  (length l <= length l')%nat -> map fst (combine l l') = l.
Proof.
  revert l'. induction l as [|x l IH]; intros [|y l'] L; simpl in *;
    try reflexivity; try lia.
  rewrite IH; [reflexivity | lia].
Qed.

Lemma map_const_combine {A B C} (z : C) (l : list A) (l' : list B) :
  (length l <= length l')%nat ->
  map (fun _ => z) (combine l l') = map (fun _ => z) l.
Proof.
  revert l'. induction l as [|x l IH]; intros [|y l'] L; simpl in *;
    try reflexivity; try lia.
  rewrite IH; [reflexivity | lia].
Qed.

(** X16. The batch is idempotent on tables of at most 20 quotes with
    distinct strikes (distances to the spot midpoint being numbers): given
    the cleaned tables it has returned, with the same sides and pricing
    parameters, it returns these tables again and reports 0 removals for
    each. *)
Theorem batch_idempotent_on_short_tables :
  forall np_exp (dfs : list DataFrame) tys spot_bid spot_ask r T
         cleaned report,
    Forall (fun df : DataFrame =>
              (length df <= 20)%nat
              /\ distinct_strikes df
              /\ numeric_distances (init np_exp spot_bid spot_ask r T 0) df)
           dfs ->
    clean_all_dataframes np_exp dfs tys spot_bid spot_ask r T
    = Ok (cleaned, report) ->
    clean_all_dataframes np_exp cleaned tys spot_bid spot_ask r T
    = Ok (cleaned, mkReport (map (fun _ => 0%Z) cleaned) []).
Proof.
  intros np_exp dfs tys sb sa r T cleaned report F H.
  unfold clean_all_dataframes in *.
  set (cleaner := init np_exp sb sa r T 0) in *.
  destruct (batch_loop cleaner (combine dfs tys) [] [])
    as [[cl cn]|e] eqn:E; [|discriminate].
  cbn [bind] in H. injection H as <- _. simpl.
  pose proof (batch_loop_length _ _ _ _ _ _ E) as [Lc _].
  simpl in Lc. rewrite length_combine in Lc.
  rewrite (batch_loop_fixed cleaner (combine cl tys)).
  - cbn [bind]. simpl.
    rewrite map_fst_combine, map_const_combine by lia. reflexivity.
  - apply Forall_forall. intros [c ty] Ic. simpl.
    destruct (In_nth_error _ _ Ic) as [i Ni].
    apply nth_error_combine in Ni. destruct Ni as [Nc Nt].
    assert (Li : (i < length dfs)%nat).
    { assert (i < length cl)%nat by (apply nth_error_Some; congruence). lia. }
    apply nth_error_Some in Li.
    destruct (nth_error dfs i) as [df|] eqn:Nd; [|congruence].
    destruct (batch_loop_nth _ _ _ _ _ _ E eq_refl i df ty)
      as (atm & c' & I & C & N1 & _).
    { apply nth_error_combine. now split. }
    simpl in N1. assert (c' = c) by congruence. subst c'.
    rewrite Forall_forall in F.
    destruct (F df (nth_error_In _ _ Nd)) as (L & D & N).
    exists atm. exact (pipeline_fixed_point cleaner df ty atm c L D N I C).
Qed.

Lemma batch_idempotent_on_short_tables_witness :
  clean_all_dataframes exp_at_zero [calls_3; scenario_A_cleaned] [call; call]
    100 100 0 1
  = Ok ([calls_3; scenario_A_cleaned],
        mkReport (map (fun _ => 0%Z) [calls_3; scenario_A_cleaned]) []).
Proof.
  apply (batch_idempotent_on_short_tables exp_at_zero [calls_3; scenario_A]
           [call; call] 100 100 0 1 _ (mkReport [0%Z; 1%Z] [])).
  - repeat constructor; try (simpl; lia);
      apply ascending_distinct_strikes; repeat constructor.
  - reflexivity.
Defined.

(** ** More iterations, and sorted input *)

Lemma clean_loop_more_fuel_subseq self pt atm :
  forall fuel df idx out st fuel' out' st',
    (exists q, anchor_row df atm = Some (idx, q)) ->
    (fuel <= fuel')%nat ->
    clean_loop self pt atm fuel df idx = Ok (out, st) ->
    clean_loop self pt atm fuel' df idx = Ok (out', st') ->
    subseq (rows out') (rows out).
Proof.
  induction fuel as [|fuel IH];
    intros df idx out st fuel' out' st' A L H H'.
  - simpl in H. injection H as <- <-.
    exact (clean_loop_subseq self pt atm fuel' df idx out' st' A H').
  - destruct fuel' as [|fuel']; [lia|]. simpl in H, H'.
    destruct (all_violations self df pt idx) as [|v vs] eqn:V.
    + injection H as <- <-. injection H' as <- <-. apply subseq_refl.
    + destruct (drop df (v :: vs)) as [d|e] eqn:D; [|discriminate].
      cbn [bind] in H, H'. rewrite <- V in D. destruct A as [q A].
      destruct (anchor_survives_removal self pt atm df idx q d A D)
        as (idx' & A' & X & P).
      unfold strike_present in P. rewrite P, X in H, H'.
      cbn [bind] in H, H'.
      apply (IH (reset_index d) idx' out st fuel' out' st'); eauto. lia.
Qed.

(** X17. A larger [max_iter] only removes more: the table returned with
    more iterations is the table returned with fewer, with some rows taken
    out. *)
Theorem more_iterations_remove_more :
  forall self df pt atm max_iter max_iter' out st out' st',
    (max_iter <= max_iter')%nat ->
    clean_trace self df pt atm max_iter = Ok (out, st) ->
    clean_trace self df pt atm max_iter' = Ok (out', st') ->
    subseq (rows out') (rows out) /\ (length out' <= length out)%nat.
Proof.
  intros self df pt atm max_iter max_iter' out st out' st' L H H'.
  unfold clean_trace in H, H'.
  destruct (anchor_index df atm) as [idx|e] eqn:X; [|discriminate].
  cbn [bind] in H, H'. apply anchor_index_row in X.
  pose proof (clean_loop_more_fuel_subseq self pt atm max_iter df idx out st
                max_iter' out' st' X L H H') as S.
  split; [exact S|]. rewrite <- !length_rows. now apply subseq_length.
Qed.

Lemma more_iterations_remove_more_witness :
  subseq (rows cascade_end) (rows cascade_rest)
  /\ (length cascade_end <= length cascade_rest)%nat.
Proof.
  apply (more_iterations_remove_more cleaner_100 cascade call 100 20 30
           cascade_rest ITER_EXHAUSTED cascade_end CLEAN).
  - lia.
  - reflexivity.
  - reflexivity.
Defined.

(** X18. A table given with the default index and ascending strikes is
    returned with the default index and ascending strikes, however the run
    ends. *)
Theorem clean_keeps_sorted_default_index :
  forall self df pt atm max_iter out st,
    canonical df ->
    clean_trace self df pt atm max_iter = Ok (out, st) ->
    canonical out.
Proof.
  intros self df pt atm max_iter out st C H. unfold clean_trace in H.
  destruct (anchor_index df atm) as [idx|e] eqn:X; [|discriminate].
  cbn [bind] in H. apply anchor_index_row in X.
  destruct (clean_loop_invariant self pt atm (fun d _ => canonical d))
    with (fuel := max_iter) (df := df) (idx := idx) (out := out) (st := st)
    as (_ & idx' & C' & _); trivial.
  intros d0 i1 d i' [_ A0] _ D _. exact (canonical_removal d0 _ d A0 D).
Qed.

Lemma clean_keeps_sorted_default_index_witness : canonical cascade_rest.
Proof.
  apply (clean_keeps_sorted_default_index cleaner_100 cascade call 100 20
           cascade_rest ITER_EXHAUSTED).
  - split; [reflexivity | repeat constructor].
  - reflexivity.
Defined.

(** ** A NaN anchor *)

(** X19. With a NaN for [atm_strike] the anchor is never resolved: NaN
    equals no strike, so [clean_single_dataframe] raises [IndexError] on
    every table, before any check. *)
Theorem nan_anchor_raises :
  forall self df pt atm max_iter,
    is_nan atm = true ->
    clean_single_dataframe self df pt atm max_iter = Raise IndexError.
Proof.
  intros self df pt atm max_iter N.
  unfold clean_single_dataframe, clean_trace. rewrite anchor_index_find.
  destruct (find (fun r => strike (snd r) =? atm) df) as [[l q]|] eqn:F;
    [exfalso | reflexivity].
  apply find_some in F. destruct F as [_ E]. simpl in E.
  apply FloatEquality.eqb_number in E. congruence.
Qed.

Lemma nan_anchor_raises_witness :
  clean_single_dataframe cleaner_100 [(0%Z, mkQuote nan 5 5.5)] call nan 20
  = Raise IndexError.
Proof.
  apply (nan_anchor_raises cleaner_100 [(0%Z, mkQuote nan 5 5.5)] call nan 20).
  reflexivity.
Defined.
